(** * Crusoe audit-log forwarder: a shallow embedding and its properties

    The development follows the Python sources of [crusoe-splunk-hec]:
    [deduplicator.py] (module [Dedup]), [splunk_hec.py] (module [Splunk]),
    [crusoe_client.py] (module [Crusoe]) and [main.py] (module [Main]).

    Conventions of the embedding.
    - A Python [str] is a Rocq [string]; its characters are the bytes of the
      UTF-8 encoding, so [s.encode('utf-8')] is the list of its bytes.
    - A Python [dict] with string keys is a [gmap string _].
    - Wall-clock readings ([time.time()], [datetime.now()]) are exact
      numbers of clock units, of type [Z]; the rounding of Python floats is
      not modelled.
    - A function that may raise returns a [result]; [try]/[except] is
      [try_except]. *)

#[global] Set Warnings "-register-all,-clear-no-such-hyp".
From Stdlib Require Import ZArith Lia List.
From Stdlib Require Import Ascii String.
From stdpp Require Import base option list gmap strings pretty.

Local Open Scope string_scope.
Local Open Scope list_scope.
Local Open Scope Z_scope.

(** ** Python preliminaries *)

(** The exception classes the sources raise or catch. All of them derive
    from [Exception] except [KeyboardInterrupt]. *)
Inductive exn :=
  | JSONDecodeError | ValueError | KeyError | TypeError | AttributeError
  | OSError | ZeroDivisionError
  | RequestException
  | CrusoeAPIError | SplunkHECError
  | KeyboardInterrupt.

Definition is_Exception (e : exn) : bool :=
  match e with KeyboardInterrupt => false | _ => true end.

Definition exn_eqb (a b : exn) : bool :=
  match a, b with
  | JSONDecodeError, JSONDecodeError | ValueError, ValueError
  | KeyError, KeyError | TypeError, TypeError
  | AttributeError, AttributeError | OSError, OSError
  | ZeroDivisionError, ZeroDivisionError
  | RequestException, RequestException
  | CrusoeAPIError, CrusoeAPIError | SplunkHECError, SplunkHECError
  | KeyboardInterrupt, KeyboardInterrupt => true
  | _, _ => false
  end.

Inductive result (A : Type) :=
  | Ok (a : A)
  | Raise (e : exn).
Arguments Ok {A} a.
Arguments Raise {A} e.

Definition rbind {A B} (m : result A) (f : A -> result B) : result B :=
  match m with Ok a => f a | Raise e => Raise e end.

#[global] Instance result_bind : MBind result := fun A B f m => rbind m f.
#[global] Instance result_ret : MRet result := fun A a => Ok a.

(** [try: body except <classes>: handler]. *)
Definition try_except {A} (body : result A) (catches : exn -> bool)
    (handler : exn -> result A) : result A :=
  match body with
  | Ok a => Ok a
  | Raise e => if catches e then handler e else Raise e
  end.

Fixpoint mapM_result {A B} (f : A -> result B) (l : list A) : result (list B) :=
  match l with
  | [] => Ok []
  | a :: l' => b ← f a; bs ← mapM_result f l'; Ok (b :: bs)
  end.

(** Values found in an event or in a parsed JSON document. *)
Inductive json :=
  | JNull
  | JBool (b : bool)
  | JNum (z : Z)
  | JStr (s : string)
  | JArr (l : list json)
  | JObj (kv : list (string * json)).

(** The members of a parsed JSON object are kept in file order; Python's
    [json] keeps the last of several members with one key. *)
Fixpoint assoc_last {A} (k : string) (kv : list (string * A)) : option A :=
  match kv with
  | [] => None
  | (k', v) :: kv' =>
      match assoc_last k kv' with
      | Some v' => Some v'
      | None => if decide (k' = k) then Some v else None
      end
  end.

(** [x.get(key, dflt)]: only a mapping has [get]. *)
Definition py_get (x : json) (key : string) (dflt : json) : result json :=
  match x with
  | JObj kv => Ok (default dflt (assoc_last key kv))
  | _ => Raise AttributeError
  end.

(** [str(x)]. A value whose text the embedding does not compute (a float,
    a list, a nested mapping) is carried as [PyOther] with its text. *)
Inductive pyval :=
  | PyStr (s : string)
  | PyInt (z : Z)
  | PyBool (b : bool)
  | PyNone
  | PyOther (repr : string).

Definition py_str (v : pyval) : string :=
  match v with
  | PyStr s => s
  | PyInt z => pretty z
  | PyBool true => "True"
  | PyBool false => "False"
  | PyNone => "None"
  | PyOther r => r
  end.

(** [sep.join(parts)]. *)
Fixpoint join (sep : string) (parts : list string) : string :=
  match parts with
  | [] => ""
  | [p] => p
  | p :: (_ :: _) as rest => (p ++ sep ++ join sep rest)%string
  end.

Definition utf8 (s : string) : list Z :=
  map (fun c => Z.of_nat (nat_of_ascii c)) (list_ascii_of_string s).

(** ** SHA-256 (FIPS 180-4), as [hashlib.sha256(...).hexdigest()] *)
Module SHA256.

Definition w32 (x : Z) : Z := x mod 2 ^ 32.
Definition add32 (x y : Z) : Z := w32 (x + y).
Definition rotr (n x : Z) : Z :=
  Z.lor (Z.shiftr x n) (w32 (Z.shiftl x (32 - n))).
Definition not32 (x : Z) : Z := Z.lxor x 0xffffffff.

Definition Ch (x y z : Z) := Z.lxor (Z.land x y) (Z.land (not32 x) z).
Definition Maj (x y z : Z) :=
  Z.lxor (Z.lxor (Z.land x y) (Z.land x z)) (Z.land y z).
Definition Sigma0 x := Z.lxor (Z.lxor (rotr 2 x) (rotr 13 x)) (rotr 22 x).
Definition Sigma1 x := Z.lxor (Z.lxor (rotr 6 x) (rotr 11 x)) (rotr 25 x).
Definition sigma0 x := Z.lxor (Z.lxor (rotr 7 x) (rotr 18 x)) (Z.shiftr x 3).
Definition sigma1 x := Z.lxor (Z.lxor (rotr 17 x) (rotr 19 x)) (Z.shiftr x 10).

(** The round constants are the first 32 bits of the fractional parts of
    the cube roots of the first 64 primes, and the initial hash value those
    of the square roots of the first 8 primes. *)
Definition primes : list Z :=
  [2; 3; 5; 7; 11; 13; 17; 19; 23; 29; 31; 37; 41; 43; 47; 53; 59; 61; 67; 71;
   73; 79; 83; 89; 97; 101; 103; 107; 109; 113; 127; 131; 137; 139; 149; 151;
   157; 163; 167; 173; 179; 181; 191; 193; 197; 199; 211; 223; 227; 229; 233;
   239; 241; 251; 257; 263; 269; 271; 277; 281; 283; 293; 307; 311].

(** The integer cube root, found bit by bit from bit [bits - 1] down. *)
Fixpoint icbrt (bits : nat) (n r : Z) : Z :=
  match bits with
  | O => r
  | S bits' =>
      let r' := r + 2 ^ Z.of_nat bits' in
      icbrt bits' n (if (r' * r' * r' <=? n)%Z then r' else r)
  end.

Definition K : list Z :=
  Eval vm_compute in map (fun p => w32 (icbrt 40 (p * 2 ^ 96) 0)) primes.

Definition H0 : list Z :=
  Eval vm_compute in map (fun p => w32 (Z.sqrt (p * 2 ^ 64))) (firstn 8 primes).

(** Big-endian bytes of the low [8 * n] bits of [x]. *)
Fixpoint be_bytes (n : nat) (x : Z) : list Z :=
  match n with
  | O => []
  | S n' => (Z.shiftr x (8 * Z.of_nat n')) mod 256 :: be_bytes n' x
  end.

Definition pad (msg : list Z) : list Z :=
  let len := Z.of_nat (length msg) in
  let zeros := Z.to_nat ((55 - len) mod 64) in
  msg ++ 0x80 :: repeat 0 zeros ++ be_bytes 8 (8 * len).

Fixpoint words (n : nat) (bs : list Z) : list Z :=
  match n, bs with
  | S n', a :: b :: c :: d :: bs' =>
      (a * 2 ^ 24 + b * 2 ^ 16 + c * 2 ^ 8 + d) :: words n' bs'
  | _, _ => []
  end.

(** The message schedule; [recent] holds the words computed so far, the
    latest first. *)
Fixpoint schedule (n : nat) (recent : list Z) : list Z :=
  match n with
  | O => rev recent
  | S n' =>
      let w k := nth k recent 0 in
      schedule n'
        (add32 (add32 (sigma1 (w 1%nat)) (w 6%nat))
               (add32 (sigma0 (w 14%nat)) (w 15%nat)) :: recent)
  end.

Definition round (st : list Z) (kw : Z * Z) : list Z :=
  match st with
  | [a; b; c; d; e; f; g; h] =>
      let t1 := add32 (add32 (add32 h (Sigma1 e)) (add32 (Ch e f g) (fst kw)))
                      (snd kw) in
      let t2 := add32 (Sigma0 a) (Maj a b c) in
      [add32 t1 t2; a; b; c; add32 d t1; e; f; g]
  | _ => st
  end.

Definition compress (h : list Z) (block : list Z) : list Z :=
  let w := schedule 48 (rev (words 16 block)) in
  let st := fold_left round (combine K w) h in
  map (fun p => add32 (fst p) (snd p)) (combine h st).

Fixpoint blocks (n : nat) (h : list Z) (bs : list Z) : list Z :=
  match n with
  | O => h
  | S n' =>
      match bs with
      | [] => h
      | _ => blocks n' (compress h (firstn 64 bs)) (skipn 64 bs)
      end
  end.

Definition digest (msg : list Z) : list Z :=
  let p := pad msg in
  flat_map (be_bytes 4) (blocks (length p) H0 p).

Definition hex_digit (n : Z) : ascii :=
  ascii_of_nat (Z.to_nat (if (n <? 10)%Z then (48 + n)%Z else (87 + n)%Z)).

Definition hex (bs : list Z) : string :=
  string_of_list_ascii
    (flat_map (fun b => [hex_digit (b / 16); hex_digit (b mod 16)]) bs).

Definition hexdigest (msg : list Z) : string := hex (digest msg).

End SHA256.

(** ** The environment: wall clock and state file *)

(** What [open] and [json.load] find at the state file's path. *)
Inductive file_content :=
  | Unreadable                (* [open] raises [OSError] *)
  | Unparseable               (* [json.load] raises [JSONDecodeError] *)
  | Parsed (data : json).

Record World := mkWorld {
  clock : nat -> Z;           (* the n-th reading of the wall clock *)
  tick : nat;                 (* how many readings were taken *)
  disk : option file_content; (* the state file, [None] when absent *)
  disk_writable : bool        (* whether writing or deleting the state file
                                 succeeds *)
}.

(** [time.time()] and [datetime.now()]: read the clock. *)
Definition time_time (w : World) : Z * World :=
  (clock w (tick w),
   mkWorld (clock w) (S (tick w)) (disk w) (disk_writable w)).

Definition write_file (w : World) (c : file_content) : World :=
  mkWorld (clock w) (tick w) (Some c) (disk_writable w).

Definition unlink_file (w : World) : World :=
  mkWorld (clock w) (tick w) None (disk_writable w).

(** An audit-log event: a mapping of field names to values. *)
Abbreviation Event := (gmap string pyval).

(** ** deduplicator.py *)
Module Dedup.

Record EventDeduplicator := mkDedup {
  tracking_window_seconds : Z;
  enabled : bool;
  seen_events : gmap string Z
}.

Definition set_seen (self : EventDeduplicator) (m : gmap string Z) :=
  mkDedup (tracking_window_seconds self) (enabled self) m.

(** [event.get(name, '')]. *)
Definition event_get (event : Event) (name : string) : pyval :=
  default (PyStr "") (event !! name).

Definition _generate_event_hash (event : Event) : string :=
  let key_fields :=
    [ event_get event "start_time";
      event_get event "actor_id";
      event_get event "action";
      event_get event "target_type";
      event_get event "target_id";
      event_get event "organization_id" ] in
  let key_string := join "|" (map py_str key_fields) in
  SHA256.hexdigest (utf8 key_string).

Definition _cleanup_old_entries (self : EventDeduplicator) (w : World)
    : EventDeduplicator * World :=
  if negb (enabled self) then (self, w)
  else
    let '(current_time, w1) := time_time w in
    let cutoff_time := current_time - tracking_window_seconds self in
    (set_seen self
       (filter (fun kv : string * Z => cutoff_time < kv.2) (seen_events self)),
     w1).

Definition is_duplicate (self : EventDeduplicator) (w : World) (event : Event)
    : bool * EventDeduplicator * World :=
  if negb (enabled self) then (false, self, w)
  else
    let '(self1, w1) := _cleanup_old_entries self w in
    let event_hash := _generate_event_hash event in
    if decide (event_hash ∈ dom (seen_events self1)) then (true, self1, w1)
    else (false, self1, w1).

(** The [for event in events] loop of [filter_duplicates]. *)
Fixpoint filter_loop (self : EventDeduplicator) (w : World)
    (events unique_events : list Event)
    : list Event * EventDeduplicator * World :=
  match events with
  | [] => (unique_events, self, w)
  | event :: rest =>
      let '(dup, self1, w1) := is_duplicate self w event in
      filter_loop self1 w1 rest
        (if dup then unique_events else unique_events ++ [event])
  end.

Definition filter_duplicates (self : EventDeduplicator) (w : World)
    (events : list Event) : list Event * EventDeduplicator * World :=
  if negb (enabled self) then (events, self, w)
  else filter_loop self w events [].

Section Persistence.

(** Library functions: [float(s)] on a string ([None] when it raises
    [ValueError]) and [datetime.isoformat()]. *)
Variable float_of_str : string -> option Z.
Variable isoformat : Z -> string.

(** [float(x)] on a value read from JSON. A number is taken with its exact
    value: neither the rounding of a large integer nor the
    [OverflowError] on an integer beyond the range of a float is modelled
    (as every exception, the latter would leave the store empty). *)
Definition py_float (v : json) : result Z :=
  match v with
  | JNum z => Ok z
  | JBool b => Ok (if b then 1 else 0)
  | JStr s =>
      match float_of_str s with
      | Some z => Ok z
      | None => Raise ValueError
      end
  | JNull | JArr _ | JObj _ => Raise TypeError
  end.

(** The items of the [dict] that [json.load] builds from the members of an
    object: one per key, holding the key's last value. *)
Fixpoint dict_items (kv : list (string * json)) : list (string * json) :=
  match kv with
  | [] => []
  | (k, v) :: kv' =>
      (k, default v (assoc_last k kv'))
        :: filter (fun p : string * json => p.1 ≠ k) (dict_items kv')
  end.

Definition py_items (x : json) : result (list (string * json)) :=
  match x with
  | JObj kv => Ok (dict_items kv)
  | _ => Raise AttributeError
  end.

(** [event_hash: float(timestamp)], for one item of the stored mapping. *)
Definition convert_item (item : string * json) : result (string * Z) :=
  let '(event_hash, timestamp) := item in
  t ← py_float timestamp; Ok (event_hash, t).

Definition read_json (c : option file_content) : result json :=
  match c with
  | None | Some Unreadable => Raise OSError
  | Some Unparseable => Raise JSONDecodeError
  | Some (Parsed data) => Ok data
  end.

Definition catches_decode_errors (e : exn) : bool :=
  match e with
  | JSONDecodeError | ValueError | KeyError => true
  | _ => false
  end.

Definition _load_state (self : EventDeduplicator) (w : World)
    : result (EventDeduplicator * World) :=
  if negb (enabled self) || negb (bool_decide (is_Some (disk w)))
  then Ok (self, w)
  else
    try_except
      (try_except
         (data ← read_json (disk w);
          seen ← py_get data "seen_events" (JObj []);
          items ← py_items seen;
          converted ← mapM_result convert_item items;
          Ok (_cleanup_old_entries
                (set_seen self (list_to_map converted)) w))
         catches_decode_errors
         (fun _ => Ok (set_seen self ∅, w)))
      is_Exception
      (fun _ => Ok (set_seen self ∅, w)).

(** [EventDeduplicator.__init__]. *)
Definition init (tracking_window_seconds : Z) (enabled : bool) (w : World)
    : result (EventDeduplicator * World) :=
  _load_state (mkDedup tracking_window_seconds enabled ∅) w.

Definition state_document (self : EventDeduplicator) (now : Z) : json :=
  JObj [ ("seen_events",
          JObj (map (fun kv : string * Z => (kv.1, JNum kv.2))
                    (map_to_list (seen_events self))));
         ("last_updated", JStr (isoformat now));
         ("tracking_window_seconds", JNum (tracking_window_seconds self)) ].

(** Writing goes through a temporary file renamed over the state file; a
    failure is logged and swallowed. *)
Definition _save_state (self : EventDeduplicator) (w : World) : World :=
  if negb (enabled self) then w
  else
    let '(now, w1) := time_time w in
    if disk_writable w1 then write_file w1 (Parsed (state_document self now))
    else w1.

(** The [for event in events] loop of [mark_events_as_sent]. *)
Fixpoint mark_loop (seen : gmap string Z) (current_time : Z)
    (events : list Event) : gmap string Z :=
  match events with
  | [] => seen
  | event :: rest =>
      let event_hash := _generate_event_hash event in
      mark_loop
        (if decide (event_hash ∈ dom seen) then seen
         else <[event_hash := current_time]> seen)
        current_time rest
  end.

Definition mark_events_as_sent (self : EventDeduplicator) (w : World)
    (events : list Event) : EventDeduplicator * World :=
  if negb (enabled self) || bool_decide (events = []) then (self, w)
  else
    let '(current_time, w1) := time_time w in
    let self1 := set_seen self (mark_loop (seen_events self) current_time events) in
    (self1, _save_state self1 w1).

(** [clear_state]: the records are dropped; the state file, when there is
    one, is deleted, and a deletion that fails is logged and swallowed. *)
Definition clear_state (self : EventDeduplicator) (w : World)
    : EventDeduplicator * World :=
  (set_seen self ∅,
   if bool_decide (is_Some (disk w))
   then (if disk_writable w then unlink_file w else w)
   else w).

End Persistence.

(** [min(values)] and [max(values)] of a non-empty sequence. *)
Definition py_min (l : list Z) : option Z :=
  match l with
  | [] => None
  | x :: l' => Some (foldr Z.min x l')
  end.

Definition py_max (l : list Z) : option Z :=
  match l with
  | [] => None
  | x :: l' => Some (foldr Z.max x l')
  end.

(** The dictionary that [get_stats] returns (the path of the state file
    is left out). *)
Record stats := mkStats {
  stat_enabled : bool;
  stat_tracking_window_seconds : Z;
  tracked_events_count : nat;
  oldest_tracked_event : option Z;
  newest_tracked_event : option Z
}.

Definition get_stats (self : EventDeduplicator) (w : World)
    : stats * EventDeduplicator * World :=
  let '(self1, w1) := _cleanup_old_entries self w in
  let values := (map_to_list (seen_events self1)).*2 in
  (mkStats (enabled self1) (tracking_window_seconds self1)
     (size (seen_events self1)) (py_min values) (py_max values),
   self1, w1).

End Dedup.

(** ** HTTP, as the [requests] library presents it *)

(** What a request through the session yields once the adapter's retries
    are over: an exception of the [RequestException] family (time-out,
    connection error, retries exhausted), or a response with its status
    and its body as [response.json()] sees it ([None]: not JSON). *)
Inductive http_outcome (B : Type) :=
  | TransportError
  | Response (status : Z) (body : option B).
Arguments TransportError {B}.
Arguments Response {B} status body.

(** [response.raise_for_status()] raises [HTTPError], a
    [RequestException], on a 4xx or 5xx status. *)
Definition raise_for_status (status : Z) : result unit :=
  if (400 <=? status)%Z && (status <? 600)%Z then Raise RequestException
  else Ok tt.

(** [response.json()]: [requests.exceptions.JSONDecodeError] derives from
    [RequestException]. *)
Definition response_json {B} (body : option B) : result B :=
  match body with
  | Some b => Ok b
  | None => Raise RequestException
  end.

Definition is_RequestException (e : exn) : bool := exn_eqb e RequestException.
Definition is_SplunkHECError (e : exn) : bool := exn_eqb e SplunkHECError.
Definition is_CrusoeAPIError (e : exn) : bool := exn_eqb e CrusoeAPIError.

(** [range(0, stop, step)] for [0 <= stop] and [step <> 0]. *)
Definition py_range (stop step : Z) : list Z :=
  if (0 <? step)%Z
  then map (fun k => k * step)%Z (seqZ 0 ((stop + step - 1) / step))
  else [].

(** [l[i:j]] for [0 <= i <= j]. *)
Definition py_slice {A} (l : list A) (i j : Z) : list A :=
  take (Z.to_nat (j - i)) (drop (Z.to_nat i) l).

Definition len {A} (l : list A) : Z := Z.of_nat (length l).

(** ** splunk_hec.py *)
Module Splunk.

(** The collector: its answer to the n-th POST, given the entries posted,
    and the log of the POSTs made so far. The envelope around each entry
    ([time], [sourcetype], [source], [index]) does not influence what the
    client does with the answer and is left out. *)
Record Sink := mkSink {
  post : nat -> list Event -> http_outcome json;
  requests : list (list Event)
}.

Definition session_post (sink : Sink) (entries : list Event)
    : http_outcome json * Sink :=
  (post sink (length (requests sink)) entries,
   mkSink (post sink) (requests sink ++ [entries])).

Definition send_events (sink : Sink) (log_entries : list Event)
    : result bool * Sink :=
  if bool_decide (log_entries = []) then (Ok true, sink)
  else
    let '(outcome, sink1) := session_post sink log_entries in
    (try_except
       (match outcome with
        | TransportError => Raise RequestException
        | Response status body =>
            _ ← raise_for_status status;
            response_data ← response_json body;
            text ← py_get response_data "text" JNull;
            match text with
            | JStr "Success" => Ok true
            | _ => Raise SplunkHECError
            end
        end)
       is_RequestException
       (fun _ => Raise SplunkHECError),
     sink1).

(** The [for i in range(0, len(log_entries), batch_size)] loop. *)
Fixpoint batch_loop (starts : list Z) (log_entries : list Event)
    (batch_size : Z) (total_sent : Z) (successfully_sent_events : list Event)
    (sink : Sink) : result (Z * list Event) * Sink :=
  match starts with
  | [] => (Ok (total_sent, successfully_sent_events), sink)
  | i :: rest =>
      let batch := py_slice log_entries i (i + batch_size) in
      match send_events sink batch with
      | (Ok _, sink1) =>
          batch_loop rest log_entries batch_size
            (total_sent + len batch) (successfully_sent_events ++ batch) sink1
      | (Raise e, sink1) =>
          if is_SplunkHECError e
          then batch_loop rest log_entries batch_size
                 total_sent successfully_sent_events sink1
          else (Raise e, sink1)
      end
  end.

Definition send_events_batch (sink : Sink) (log_entries : list Event)
    (batch_size : Z) : result (Z * list Event) * Sink :=
  if bool_decide (log_entries = []) then (Ok (0, []), sink)
  else if bool_decide (batch_size = 0)
  then (Raise ZeroDivisionError, sink)   (* total_batches = ... // batch_size *)
  else batch_loop (py_range (len log_entries) batch_size)
         log_entries batch_size 0 [] sink.

(** [health_check]: post one test event; any exception means [False]. *)
Definition test_event (isoformat : Z -> string) (now : Z) : Event :=
  {[ "timestamp" := PyStr (isoformat now);
     "message" := PyStr "Health check from crusoe-splunk-hec";
     "event_type" := PyStr "health_check" ]}.

Definition health_check (isoformat : Z -> string) (w : World) (sink : Sink)
    : result bool * World * Sink :=
  let '(now, w1) := time_time w in
  let '(r, sink1) := send_events sink [test_event isoformat now] in
  (try_except (_ ← r; Ok true) is_Exception (fun _ => Ok false), w1, sink1).

End Splunk.

(** ** Library functions used by the request signer *)
Module PyLib.

(** The value of a character in the base64 alphabet, after the translation
    of [-] and [_] that [base64.urlsafe_b64decode] applies first. *)
Definition b64_value (c : ascii) : option Z :=
  let n := Z.of_nat (nat_of_ascii c) in
  if (65 <=? n)%Z && (n <=? 90)%Z then Some (n - 65)
  else if (97 <=? n)%Z && (n <=? 122)%Z then Some (n - 71)
  else if (48 <=? n)%Z && (n <=? 57)%Z then Some (n + 4)
  else if (n =? 43)%Z || (n =? 45)%Z then Some 62
  else if (n =? 47)%Z || (n =? 95)%Z then Some 63
  else None.

(** [binascii.a2b_base64] in its default, non-strict mode: characters
    outside the alphabet are skipped, a padding sequence that completes a
    quad ends the input, and data left in an incomplete quad is an error
    ([None] stands for [binascii.Error]). [out] is kept in reverse. *)
Fixpoint a2b_base64 (cs : list ascii) (quad_pos leftchar pads : Z)
    (out : list Z) : option (list Z) :=
  match cs with
  | [] => if (quad_pos =? 0)%Z then Some (rev out) else None
  | c :: cs' =>
      if (Z.of_nat (nat_of_ascii c) =? 61)%Z then
        if (2 <=? quad_pos)%Z then
          if (4 <=? quad_pos + (pads + 1))%Z then Some (rev out)
          else a2b_base64 cs' quad_pos leftchar (pads + 1) out
        else a2b_base64 cs' quad_pos leftchar pads out
      else
        match b64_value c with
        | None => a2b_base64 cs' quad_pos leftchar pads out
        | Some v =>
            if (quad_pos =? 0)%Z then a2b_base64 cs' 1 v 0 out
            else if (quad_pos =? 1)%Z then
              a2b_base64 cs' 2 (Z.land v 15) 0
                (Z.lor (Z.shiftl leftchar 2) (Z.shiftr v 4) :: out)
            else if (quad_pos =? 2)%Z then
              a2b_base64 cs' 3 (Z.land v 3) 0
                (Z.lor (Z.shiftl leftchar 4) (Z.shiftr v 2) :: out)
            else
              a2b_base64 cs' 0 0 0 (Z.lor (Z.shiftl leftchar 6) v :: out)
        end
  end.

Definition is_ascii_str (s : string) : bool :=
  forallb (fun c => (nat_of_ascii c <? 128)%nat) (list_ascii_of_string s).

(** [base64.urlsafe_b64decode(s)] on a [str]: [None] when it raises
    ([ValueError] on a non-ASCII character, [binascii.Error] otherwise). *)
Definition urlsafe_b64decode (s : string) : option (list Z) :=
  if is_ascii_str s then a2b_base64 (list_ascii_of_string s) 0 0 0 []
  else None.

Definition b64_char (v : Z) : ascii :=
  ascii_of_nat (Z.to_nat
    (if (v <? 26)%Z then v + 65
     else if (v <? 52)%Z then v + 71
     else if (v <? 62)%Z then v - 4
     else if (v =? 62)%Z then 45 else 95)).

(** [base64.urlsafe_b64encode(bs).decode('ascii')]. *)
Fixpoint urlsafe_b64encode_chars (bs : list Z) : list ascii :=
  match bs with
  | [] => []
  | [a] =>
      [b64_char (Z.shiftr a 2); b64_char (Z.shiftl (Z.land a 3) 4);
       "="%char; "="%char]
  | [a; b] =>
      [b64_char (Z.shiftr a 2);
       b64_char (Z.lor (Z.shiftl (Z.land a 3) 4) (Z.shiftr b 4));
       b64_char (Z.shiftl (Z.land b 15) 2); "="%char]
  | a :: b :: c :: rest =>
      b64_char (Z.shiftr a 2)
        :: b64_char (Z.lor (Z.shiftl (Z.land a 3) 4) (Z.shiftr b 4))
        :: b64_char (Z.lor (Z.shiftl (Z.land b 15) 2) (Z.shiftr c 6))
        :: b64_char (Z.land c 63)
        :: urlsafe_b64encode_chars rest
  end.

Definition urlsafe_b64encode (bs : list Z) : string :=
  string_of_list_ascii (urlsafe_b64encode_chars bs).

(** [s.rstrip("=")]. *)
Fixpoint rstrip_eq_chars (cs : list ascii) : list ascii :=
  match cs with
  | [] => []
  | c :: cs' =>
      match rstrip_eq_chars cs' with
      | [] => if Ascii.eqb c "="%char then [] else [c]
      | r => c :: r
      end
  end.

Definition rstrip_eq (s : string) : string :=
  string_of_list_ascii (rstrip_eq_chars (list_ascii_of_string s)).

(** ['=' * n]. *)
Fixpoint str_repeat_eq (n : nat) : string :=
  match n with O => "" | S n' => String "="%char (str_repeat_eq n') end.

(** [hmac.new(key, msg, hashlib.sha256).digest()] (RFC 2104). *)
Definition hmac_sha256 (key msg : list Z) : list Z :=
  let key1 := if (64 <? length key)%nat then SHA256.digest key else key in
  let key2 := key1 ++ repeat 0 (64 - length key1) in
  let inner := SHA256.digest (map (Z.lxor 0x36) key2 ++ msg) in
  SHA256.digest (map (Z.lxor 0x5c) key2 ++ inner).

(** [sorted(items)] for items with distinct keys: by key. *)
Fixpoint insert_sorted {A} (x : string * A) (l : list (string * A))
    : list (string * A) :=
  match l with
  | [] => [x]
  | y :: l' =>
      if String.leb (fst x) (fst y) then x :: l else y :: insert_sorted x l'
  end.

Definition sorted {A} (l : list (string * A)) : list (string * A) :=
  fold_right insert_sorted [] l.

End PyLib.

(** ** crusoe_client.py *)
Module Crusoe.

Record CrusoeConfig := mkConfig {
  api_token : option string;
  access_key_id : option string;
  secret_access_key : option string;
  base_url : string;
  organization_id : string
}.

(** Truth value of an [Optional[str]]. *)
Definition truthy (s : option string) : bool :=
  match s with
  | Some s' => negb (bool_decide (s' = ""))
  | None => false
  end.

Definition headers : Type := list (string * string).

Section Signer.

(** Library functions left abstract: [urlparse(url).path],
    [urlencode(items)] and the text of a UTC time at second granularity
    ([str(dt).replace(" ", "T")]). *)
Variable url_path : string -> string.
Variable urlencode : list (string * pyval) -> string.
Variable utc_timestamp : Z -> string.

Definition _create_crusoe_signature (config : CrusoeConfig) (w : World)
    (method url : string) (params : list (string * pyval))
    : result headers * World :=
  let full_path := url_path url in
  let http_path :=
    if String.prefix "/v1alpha5/" full_path
    then String.substring 10 (String.length full_path - 10) full_path
    else full_path in
  let canonicalized_query_params :=
    if bool_decide (params = []) then "" else urlencode (PyLib.sorted params) in
  let '(now, w1) := time_time w in
  let timestamp := utc_timestamp now in
  let api_version := "/v1alpha5/" in
  let payload :=
    (api_version ++ http_path ++ String "010" ""
       ++ canonicalized_query_params ++ String "010" ""
       ++ method ++ String "010" "" ++ timestamp ++ String "010" "")%string in
  let secret := default "" (secret_access_key config) in
  (decoded_secret ←
     try_except
       (let secret_key_padded :=
          (secret ++ PyLib.str_repeat_eq
                       (Z.to_nat ((- Z.of_nat (String.length secret)) mod 4)))%string in
        match PyLib.urlsafe_b64decode secret_key_padded with
        | Some bs => Ok bs
        | None => Raise ValueError
        end)
       is_Exception
       (fun _ => Raise CrusoeAPIError);
   payload_bytes ←
     (if PyLib.is_ascii_str payload then Ok (utf8 payload)
      else Raise ValueError);
   let signature_bytes := PyLib.hmac_sha256 decoded_secret payload_bytes in
   let signature := PyLib.rstrip_eq (PyLib.urlsafe_b64encode signature_bytes) in
   let signature_version := "1.0" in
   let auth_value :=
     (signature_version ++ ":" ++ default "" (access_key_id config)
        ++ ":" ++ signature)%string in
   Ok [ ("X-Crusoe-Timestamp", timestamp);
        ("Authorization", ("Bearer " ++ auth_value)%string) ],
   w1).

Definition _sign_request (config : CrusoeConfig) (w : World)
    (method url : string) (params : list (string * pyval))
    : result headers * World :=
  if truthy (api_token config) then
    (Ok [("Authorization",
          ("Bearer " ++ default "" (api_token config))%string)], w)
  else if truthy (access_key_id config) && truthy (secret_access_key config)
  then _create_crusoe_signature config w method url params
  else (Ok [], w).

(** The body of a response of the source API, as [get_audit_logs] reads
    it: a mapping with its [items] (none when the key is missing), or JSON
    of another shape, on which [.get] raises [AttributeError]. *)
Inductive source_body :=
  | Mapping (items : option (list Event))
  | NotMapping.

(** One GET on the wire: what was asked. *)
Record request := mkRequest {
  req_url : string;
  req_params : list (string * pyval);
  req_headers : headers
}.

(** The source API: its answer to the n-th GET, and the GETs made. *)
Record Source := mkSource {
  get : nat -> request -> http_outcome source_body;
  gets : list request
}.

Definition session_get (src : Source) (r : request)
    : http_outcome source_body * Source :=
  (get src (length (gets src)) r, mkSource (get src) (gets src ++ [r])).

(** Start and end times reach [get_audit_logs] as [datetime] values; they
    are kept as the texts [isoformat()] gives. [None] and [0] are false. *)
Definition get_audit_logs (config : CrusoeConfig) (st : World * Source)
    (start_time end_time : option string) (limit offset : option Z)
    : result (list Event) * (World * Source) :=
  let '(w, src) := st in
  let url :=
    (base_url config ++ "/organizations/" ++ organization_id config
       ++ "/audit-logs")%string in
  let params :=
    (if truthy start_time then [("start_time", PyStr (default "" start_time))] else [])
    ++ (if truthy end_time then [("end_time", PyStr (default "" end_time))] else [])
    ++ (match limit with
        | Some l => if bool_decide (l = 0) then [] else [("limit", PyInt l)]
        | None => [] end)
    ++ (match offset with
        | Some o => if bool_decide (o = 0) then [] else [("offset", PyInt o)]
        | None => [] end) in
  match _sign_request config w "GET" url params with
  | (Raise e, w1) =>
      ((if is_RequestException e then Raise CrusoeAPIError else Raise e),
       (w1, src))
  | (Ok auth_headers, w1) =>
      let all_headers :=
        [("Content-Type", "application/json");
         ("User-Agent", "crusoe-splunk-hec/1.0")] ++ auth_headers in
      let '(outcome, src1) :=
        session_get src (mkRequest url params all_headers) in
      (try_except
         (match outcome with
          | TransportError => Raise RequestException
          | Response status body =>
              _ ← raise_for_status status;
              data ← response_json body;
              match data with
              | Mapping items => Ok (default [] items)
              | NotMapping => Raise AttributeError
              end
          end)
         is_RequestException
         (fun _ => Raise CrusoeAPIError),
       (w1, src1))
  end.

(** [health_check]: fetch one log; any exception means [False]. *)
Definition health_check (config : CrusoeConfig) (st : World * Source)
    : result bool * (World * Source) :=
  let '(r, st1) := get_audit_logs config st None None (Some 1) None in
  (try_except (_ ← r; Ok true) is_Exception (fun _ => Ok false), st1).

End Signer.

(** *** Pagination

    [get_audit_logs_paginated] is written over the page fetch it calls
    ([self.get_audit_logs]), with whatever state [S] that fetch works on.
    The [while True] loop runs on fuel: [None] means the fuel ran out.
    [calls] logs every fetch made: its [limit], its [offset] and what it
    returned or raised. *)
Record fetch_call := mkCall {
  call_limit : Z;
  call_offset : Z;
  call_result : result (list Event)
}.

Section Pagination.

Context {S : Type}.
Variable fetch : S -> Z -> Z -> result (list Event) * S.

(** Truth value of [max_pages and page_count >= max_pages]. *)
Definition cap_reached (max_pages : option Z) (page_count : Z) : bool :=
  match max_pages with
  | Some m => negb (bool_decide (m = 0)) && bool_decide (m <= page_count)
  | None => false
  end.

Fixpoint paginate_loop (fuel : nat) (s : S) (page_size : Z)
    (max_pages : option Z) (all_logs : list Event) (offset page_count : Z)
    (calls : list fetch_call)
    : option (result (list Event) * S * list fetch_call) :=
  match fuel with
  | O => None
  | Datatypes.S fuel' =>
      if cap_reached max_pages page_count then Some (Ok all_logs, s, calls)
      else
        let '(r, s1) := fetch s page_size offset in
        let calls1 := calls ++ [mkCall page_size offset r] in
        match r with
        | Ok logs =>
            if bool_decide (logs = []) then Some (Ok all_logs, s1, calls1)
            else if bool_decide (len logs < page_size)
            then Some (Ok (all_logs ++ logs), s1, calls1)
            else paginate_loop fuel' s1 page_size max_pages
                   (all_logs ++ logs) (offset + len logs) (page_count + 1)
                   calls1
        | Raise e =>
            if is_CrusoeAPIError e then Some (Raise CrusoeAPIError, s1, calls1)
            else if is_Exception e then Some (Ok all_logs, s1, calls1)
            else Some (Raise e, s1, calls1)
        end
  end.

Definition get_audit_logs_paginated (fuel : nat) (s : S) (page_size : Z)
    (max_pages : option Z)
    : option (result (list Event) * S * list fetch_call) :=
  paginate_loop fuel s page_size max_pages [] 0 0 [].

End Pagination.

End Crusoe.

(** ** config.py *)
Module Config.

Record SplunkConfig := mkSplunkConfig {
  hec_token : string;
  hec_url : string;
  index : option string;
  sourcetype : string;
  source : string;
  verify_ssl : bool
}.

Record AppConfig := mkAppConfig {
  crusoe : Crusoe.CrusoeConfig;
  splunk : SplunkConfig;
  batch_size : Z;
  timeout : Z;
  max_retries : Z
}.

Definition validate_config (self : AppConfig) : result unit :=
  let has_token := Crusoe.truthy (Crusoe.api_token (crusoe self)) in
  let has_keys :=
    Crusoe.truthy (Crusoe.access_key_id (crusoe self))
    && Crusoe.truthy (Crusoe.secret_access_key (crusoe self)) in
  if negb has_token && negb has_keys then Raise ValueError
  else if bool_decide (Crusoe.organization_id (crusoe self) = "")
  then Raise ValueError
  else if bool_decide (hec_token (splunk self) = "") then Raise ValueError
  else if bool_decide (hec_url (splunk self) = "") then Raise ValueError
  else Ok tt.

End Config.

(** ** main.py *)
Module Main.

Record LogForwarder := mkForwarder {
  config : Crusoe.CrusoeConfig;
  batch_size : Z;
  deduplicator : option Dedup.EventDeduplicator
}.

Definition set_deduplicator (self : LogForwarder)
    (d : option Dedup.EventDeduplicator) : LogForwarder :=
  mkForwarder (config self) (batch_size self) d.

(** Everything outside the forwarder that a cycle reads or writes. *)
Record Env := mkEnv {
  world : World;
  source : Crusoe.Source;
  sink : Splunk.Sink
}.

Section Forward.

Variable url_path : string -> string.
Variable urlencode : list (string * pyval) -> string.
Variable utc_timestamp : Z -> string.
Variable isoformat : Z -> string.

(** [forward_logs]; [fuel] bounds the pages of the fetch. The three
    [except] clauses log and re-raise, so an exception passes through. *)
Definition forward_logs (fuel : nat) (self : LogForwarder) (env : Env)
    (start_time end_time : option string) (dry_run : bool)
    : option (result Z * LogForwarder * Env) :=
  match
    Crusoe.get_audit_logs_paginated
      (fun st limit offset =>
         Crusoe.get_audit_logs url_path urlencode utc_timestamp
           (config self) st start_time end_time (Some limit) (Some offset))
      fuel (world env, source env) (batch_size self) None
  with
  | None => None
  | Some (Raise e, (w1, src1), _) =>
      Some (Raise e, self, mkEnv w1 src1 (sink env))
  | Some (Ok logs, (w1, src1), _) =>
      if bool_decide (logs = []) then
        Some (Ok 0, self, mkEnv w1 src1 (sink env))
      else
        let '(logs1, dedup1, w2) :=
          match deduplicator self with
          | Some d =>
              let '(kept, d1, w2) := Dedup.filter_duplicates d w1 logs in
              (kept, Some d1, w2)
          | None => (logs, None, w1)
          end in
        let self1 := set_deduplicator self dedup1 in
        if bool_decide (logs1 = []) then
          Some (Ok 0, self1, mkEnv w2 src1 (sink env))
        else if dry_run then
          Some (Ok (len logs1), self1, mkEnv w2 src1 (sink env))
        else
          match Splunk.send_events_batch (sink env) logs1 (batch_size self) with
          | (Raise e, sink1) => Some (Raise e, self1, mkEnv w2 src1 sink1)
          | (Ok (sent_count, successfully_sent_events), sink1) =>
              match dedup1 with
              | Some d1 =>
                  if bool_decide (successfully_sent_events = []) then
                    Some (Ok sent_count, self1, mkEnv w2 src1 sink1)
                  else
                    let '(d2, w3) :=
                      Dedup.mark_events_as_sent isoformat d1 w2
                        successfully_sent_events in
                    Some (Ok sent_count, set_deduplicator self1 (Some d2),
                          mkEnv w3 src1 sink1)
              | None => Some (Ok sent_count, self1, mkEnv w2 src1 sink1)
              end
          end
  end.

(** [LogForwarder.health_check]: the source first, the collector only
    when the source is healthy. *)
Definition health_check (self : LogForwarder) (env : Env)
    : result bool * Env :=
  let '(crusoe_healthy, (w1, src1)) :=
    Crusoe.health_check url_path urlencode utc_timestamp (config self)
      (world env, source env) in
  match crusoe_healthy with
  | Raise e => (Raise e, mkEnv w1 src1 (sink env))
  | Ok false => (Ok false, mkEnv w1 src1 (sink env))
  | Ok true =>
      let '(splunk_healthy, w2, sink1) :=
        Splunk.health_check isoformat w1 (sink env) in
      match splunk_healthy with
      | Raise e => (Raise e, mkEnv w2 src1 sink1)
      | Ok false => (Ok false, mkEnv w2 src1 sink1)
      | Ok true => (Ok true, mkEnv w2 src1 sink1)
      end
  end.

End Forward.

(** *** The daemon loop

    A [datetime] is a number of microseconds; [timedelta(seconds=n)] is
    [n] seconds. The loop is written over the forwarding call it makes and
    the state [St] that call works on; [now] reads
    [datetime.now(timezone.utc)]. It never ends by itself, so the
    embedding runs a given number of cycles. *)
Definition timedelta (seconds : Z) : Z := seconds * 1000000.

Record cycle := mkCycle {
  cycle_start : Z;
  cycle_end : Z;
  cycle_result : result Z
}.

Section Daemon.

Context {St : Type}.
Variable now : St -> Z * St.
Variable forward : St -> Z -> Z -> result Z * St.
Variable lookback : Z.

Record daemon_state := mkDaemon {
  last_run_time : option Z;
  env_state : St;
  cycles_run : list cycle;
  interrupted : bool
}.

Definition window_start (last_run_time : option Z) (end_time : Z) : Z :=
  match last_run_time with
  | None => end_time - timedelta lookback
  | Some t => t - timedelta 30
  end.

(** One pass through the body of [while True]. *)
Definition daemon_cycle (d : daemon_state) : daemon_state :=
  let '(end_time, st1) := now (env_state d) in
  let start_time := window_start (last_run_time d) end_time in
  let '(r, st2) := forward st1 start_time end_time in
  let log := cycles_run d ++ [mkCycle start_time end_time r] in
  match r with
  | Ok _ => mkDaemon (Some end_time) st2 log false
  | Raise e =>
      if is_Exception e then mkDaemon (last_run_time d) st2 log false
      else mkDaemon (last_run_time d) st2 log true
  end.

Fixpoint daemon_loop (n : nat) (d : daemon_state) : daemon_state :=
  match n with
  | O => d
  | Datatypes.S n' =>
      let d1 := daemon_cycle d in
      if interrupted d1 then d1 else daemon_loop n' d1
  end.

Definition daemon (n : nat) (st : St) : daemon_state :=
  daemon_loop n (mkDaemon None st [] false).

End Daemon.

End Main.

(** * Vocabulary of the specification *)

(** The six fields that identify an event. *)
Definition identity_fields : list string :=
  ["start_time"; "actor_id"; "action"; "target_type"; "target_id";
   "organization_id"].

(** Two events have the same identity when each of the six fields reads
    the same in both, a missing field reading as the empty string. *)
Definition same_identity (e1 e2 : Event) : Prop :=
  Forall (fun f => Dedup.event_get e1 f = Dedup.event_get e2 f) identity_fields.

(** The text that is hashed, in the words of the specification: the six
    values in order, joined with the separator. *)
Definition identity_text (e : Event) : string :=
  join "|" (map (fun f => py_str (Dedup.event_get e f)) identity_fields).

(** The world after [n] more readings of the clock. *)
Definition advance (w : World) (n : nat) : World :=
  mkWorld (clock w) (tick w + n) (disk w) (disk_writable w).

(** The records of [self] that outlive the purges made at the first [n]
    clock readings taken from [w] on: a record is purged by a reading
    [now] unless [now - tracking_window_seconds < timestamp]. *)
Definition surviving (self : Dedup.EventDeduplicator) (w : World) (n : nat)
    : gmap string Z :=
  filter
    (fun kv : string * Z =>
       Forall (fun j => clock w (tick w + j)%nat
                        - Dedup.tracking_window_seconds self < kv.2)
              (seq 0 n))
    (Dedup.seen_events self).

(** The events that a duplicate filter run from [self] and [w] keeps, when
    the first of [events] is the [i]-th event it checks: the check of an
    event follows one more purge than the check before it. *)
Fixpoint kept_from (self : Dedup.EventDeduplicator) (w : World) (i : nat)
    (events : list Event) : list Event :=
  match events with
  | [] => []
  | e :: rest =>
      if decide (Dedup._generate_event_hash e ∈ dom (surviving self w (S i)))
      then kept_from self w (S i) rest
      else e :: kept_from self w (S i) rest
  end.

(** The claim's reading of the filter: keep what is not recorded. *)
Definition not_recorded (self : Dedup.EventDeduplicator) (events : list Event)
    : list Event :=
  filter (fun e => Dedup._generate_event_hash e ∉ dom (Dedup.seen_events self))
         events.

(** The state document has the expected shape: a mapping whose
    [seen_events], when there is one, is a mapping of values that [float]
    converts. *)
Definition converts (float_of_str : string -> option Z) (v : json) : bool :=
  match Dedup.py_float float_of_str v with Ok _ => true | Raise _ => false end.

Definition well_formed_state (float_of_str : string -> option Z) (data : json)
    : bool :=
  match data with
  | JObj kv =>
      match default (JObj []) (assoc_last "seen_events" kv) with
      | JObj items =>
          forallb (fun p => converts float_of_str p.2) (Dedup.dict_items items)
      | _ => false
      end
  | _ => false
  end.

(** Consecutive chunks of [n] elements, the last one possibly smaller. *)
Fixpoint chunks_fuel {A} (fuel n : nat) (l : list A) : list (list A) :=
  match fuel with
  | O => []
  | S fuel' =>
      match l with
      | [] => []
      | _ => take n l :: chunks_fuel fuel' n (drop n l)
      end
  end.

Definition chunks {A} (n : nat) (l : list A) : list (list A) :=
  chunks_fuel (length l) n l.

(** The collector confirms a delivery when the transport succeeded and the
    JSON body of the response has a [text] field equal to ["Success"]. *)
Definition delivery_confirmed (answer : http_outcome json) : bool :=
  match answer with
  | Response status (Some (JObj kv)) =>
      negb ((400 <=? status) && (status <? 600))
      && match assoc_last "text" kv with
         | Some (JStr text) => bool_decide (text = "Success")
         | _ => false
         end
  | _ => false
  end.

(** The answer is one the HEC protocol allows for: a transport failure, an
    error status, a body that is not JSON, or a JSON mapping. *)
Definition hec_answer (answer : http_outcome json) : bool :=
  match answer with
  | TransportError | Response _ None | Response _ (Some (JObj _)) => true
  | Response status (Some _) => (400 <=? status) && (status <? 600)
  end.

(** Of the chunks [cs], posted as requests number [i], [i + 1], ..., those
    whose delivery the collector confirms. *)
Fixpoint confirmed_chunks (sink : Splunk.Sink) (i : nat)
    (cs : list (list Event)) : list (list Event) :=
  match cs with
  | [] => []
  | c :: cs' =>
      if delivery_confirmed (Splunk.post sink i c)
      then c :: confirmed_chunks sink (S i) cs'
      else confirmed_chunks sink (S i) cs'
  end.

(** Every chunk, posted in its turn, gets an answer the protocol allows. *)
Fixpoint hec_answers (sink : Splunk.Sink) (i : nat) (cs : list (list Event))
    : Prop :=
  match cs with
  | [] => True
  | c :: cs' => hec_answer (Splunk.post sink i c) = true
                /\ hec_answers sink (S i) cs'
  end.

(** *** Pagination, in the words of the specification *)

(** The pages that the fetches of a log returned. *)
Definition pages_of (tr : list Crusoe.fetch_call) : list (list Event) :=
  omap (fun c => match Crusoe.call_result c with
                 | Ok p => Some p
                 | Raise _ => None
                 end) tr.

(** A fetch that returned a full page: not empty, and not shorter than the
    page size. *)
Definition full_page (page_size : Z) (c : Crusoe.fetch_call) : Prop :=
  exists p, Crusoe.call_result c = Ok p /\ p <> [] /\ page_size <= len p.

(** Every fetch asks for [page_size] events, from the offset that is the
    number of events the fetches before it returned. *)
Definition well_addressed (page_size : Z) (tr : list Crusoe.fetch_call) : Prop :=
  forall k c, tr !! k = Some c ->
    Crusoe.call_limit c = page_size
    /\ Crusoe.call_offset c = len (concat (pages_of (take k tr))).

(** Why the fetching stopped, and what is returned then. *)
Definition stop_and_result (page_size : Z) (max_pages : option Z)
    (tr : list Crusoe.fetch_call) (r : result (list Event)) : Prop :=
  match last tr with
  | None => r = Ok [] /\ Crusoe.cap_reached max_pages 0 = true
  | Some c =>
      match Crusoe.call_result c with
      | Ok p =>
          r = Ok (concat (pages_of tr))
          /\ (p = [] \/ len p < page_size
              \/ Crusoe.cap_reached max_pages (Z.of_nat (length tr)) = true)
      | Raise e =>
          if is_CrusoeAPIError e then r = Raise CrusoeAPIError
          else if is_Exception e then r = Ok (concat (pages_of tr))
          else r = Raise e
      end
  end.

Definition pagination_post (page_size : Z) (max_pages : option Z)
    (tr : list Crusoe.fetch_call) (r : result (list Event)) : Prop :=
  well_addressed page_size tr
  /\ Forall (full_page page_size) (take (length tr - 1) tr)
  /\ (forall k, (k < length tr)%nat ->
                Crusoe.cap_reached max_pages (Z.of_nat k) = false)
  /\ stop_and_result page_size max_pages tr r.

(** What holds each time the loop comes back to its head. *)
Definition pagination_inv (page_size : Z) (max_pages : option Z)
    (all_logs : list Event) (offset page_count : Z)
    (calls : list Crusoe.fetch_call) : Prop :=
  Forall (full_page page_size) calls
  /\ all_logs = concat (pages_of calls)
  /\ offset = len all_logs
  /\ page_count = Z.of_nat (length calls)
  /\ well_addressed page_size calls
  /\ (forall k, (k < length calls)%nat ->
                Crusoe.cap_reached max_pages (Z.of_nat k) = false).


(** *** Request signing *)

(** The secret with the padding that the signer appends before decoding. *)
Definition padded (secret : string) : string :=
  (secret ++ PyLib.str_repeat_eq
               (Z.to_nat ((- Z.of_nat (String.length secret)) mod 4)))%string.


(** *** The daemon's windows *)

(** The end of the last cycle of a log that completed without raising. *)
Definition last_successful_end (log : list Main.cycle) : option Z :=
  last (omap (fun c => match Main.cycle_result c with
                       | Ok _ => Some (Main.cycle_end c)
                       | Raise _ => None
                       end) log).

(** The window of every cycle starts 30 seconds before the end of the last
    cycle that completed before it, and [lookback] seconds before its own
    end when no cycle has completed yet. *)
Definition windows_follow (lookback : Z) (log : list Main.cycle) : Prop :=
  forall k c, log !! k = Some c ->
    Main.cycle_start c
    = match last_successful_end (take k log) with
      | Some e => e - Main.timedelta 30
      | None => Main.cycle_end c - Main.timedelta lookback
      end.

(** What holds of the daemon's state between two cycles. *)
Definition daemon_inv {St : Type} (lookback : Z)
    (d : Main.daemon_state (St := St)) : Prop :=
  Main.last_run_time d = last_successful_end (Main.cycles_run d)
  /\ windows_follow lookback (Main.cycles_run d).

(** *** One forwarding cycle *)

(** The paginated fetch that a forwarding cycle starts with. *)
Definition fetched (url_path : string -> string)
    (urlencode : list (string * pyval) -> string)
    (utc_timestamp : Z -> string) (fuel : nat) (self : Main.LogForwarder)
    (env : Main.Env) (start_time end_time : option string)
    : option (result (list Event) * (World * Crusoe.Source)
              * list Crusoe.fetch_call) :=
  Crusoe.get_audit_logs_paginated
    (fun st limit offset =>
       Crusoe.get_audit_logs url_path urlencode utc_timestamp
         (Main.config self) st start_time end_time (Some limit) (Some offset))
    fuel (Main.world env, Main.source env) (Main.batch_size self) None.

(** ** Sample data *)

Definition ev_login : Event :=
  {[ "start_time" := PyStr "2024-05-01T10:00:00Z"; "actor_id" := PyStr "u-17";
     "action" := PyStr "login"; "target_type" := PyStr "session";
     "organization_id" := PyStr "org-1"; "client_ip" := PyStr "10.0.0.1" ]}.

Definition ev_login' : Event :=
  {[ "start_time" := PyStr "2024-05-01T10:00:00Z"; "actor_id" := PyStr "u-17";
     "action" := PyStr "login"; "target_type" := PyStr "session";
     "target_id" := PyStr "";
     "organization_id" := PyStr "org-1"; "client_ip" := PyStr "192.168.1.9";
     "end_time" := PyStr "2024-05-01T10:00:02Z" ]}.


(** A store that still holds a record from long ago, and a world whose
    clock reads 1000 at every reading. *)
Definition store_stale : Dedup.EventDeduplicator :=
  Dedup.mkDedup 100 true {[ Dedup._generate_event_hash ev_login := 0 ]}.

Definition world_1000 : World := mkWorld (fun _ => 1000) 0 None true.

(** A clock that reads 1000 twice and 1100 from then on. *)
Definition world_boundary : World :=
  mkWorld (fun n => if (n <? 2)%nat then 1000 else 1100) 0 None true.

Definition monotone_clock (w : World) : Prop :=
  forall i j, (i <= j)%nat -> clock w i <= clock w j.

(** [float] on the decimal digits of a natural number, for the examples. *)
Definition float_of_digits (s : string) : option Z :=
  if bool_decide (s = "1700000000") then Some 1700000000 else None.

Definition state_with_bad_timestamp : json :=
  JObj [("seen_events", JObj [("ab12", JNum 1700000000); ("cd34", JStr "soon")]);
        ("last_updated", JStr "2024-05-01T10:00:00+00:00");
        ("tracking_window_seconds", JNum 390)].

(** Five distinguishable events, and a collector that confirms every
    delivery but the second. *)
Definition ev (n : Z) : Event := {[ "actor_id" := PyInt n ]}.

Definition five_events : list Event := [ev 0; ev 1; ev 2; ev 3; ev 4].

(** The 250 events of the batch scenario. *)
Definition events_250 : list Event :=
  map (fun k => ev (Z.of_nat k)) (seq 0 250).

Definition hec_success : http_outcome json :=
  Response 200 (Some (JObj [("text", JStr "Success"); ("code", JNum 0)])).

Definition sink_second_fails : Splunk.Sink :=
  Splunk.mkSink
    (fun i _ => if (i =? 1)%nat then Response 503 None else hec_success) [].

(** A source holding three events, served by offset; its state counts the
    fetches. *)
Definition fetch_three (n : nat) (limit offset : Z)
    : result (list Event) * nat :=
  (Ok (py_slice [ev 0; ev 1; ev 2] offset (offset + limit)), S n).


Definition source_idle : Crusoe.Source :=
  Crusoe.mkSource (fun _ _ => Response 200 (Some (Crusoe.Mapping (Some [])))) [].

(** A daemon run every 300 seconds from second 1000 on, whose first cycle
    fails on the source API; its state counts the cycles. *)
Definition now_every_300 (n : nat) : Z * nat :=
  (Main.timedelta (1000 + 300 * Z.of_nat n), n).

Definition forward_first_fails (n : nat) (start_time end_time : Z)
    : result Z * nat :=
  (match n with O => Raise CrusoeAPIError | _ => Ok 0 end, S n).

(** A disabled store, and an enabled one that has recorded [ev_login] at
    time 950. *)
Definition store_disabled : Dedup.EventDeduplicator :=
  Dedup.mkDedup 100 false {[ Dedup._generate_event_hash ev_login := 950 ]}.

Definition store_recent : Dedup.EventDeduplicator :=
  Dedup.mkDedup 100 true {[ Dedup._generate_event_hash ev_login := 950 ]}.

Definition world_read_only : World := mkWorld (fun _ => 1000) 0 None false.

(** A collector whose second answer is JSON, but a list. *)
Definition sink_second_is_list : Splunk.Sink :=
  Splunk.mkSink
    (fun i _ => if (i =? 1)%nat then Response 200 (Some (JArr []))
                else hec_success) [].

(** A token configuration, and a complete application configuration. *)
Definition config_token : Crusoe.CrusoeConfig :=
  Crusoe.mkConfig (Some "tok-1") None None
    "https://api.crusoecloud.com/v1alpha5" "org-1".

Definition app_config_token : Config.AppConfig :=
  Config.mkAppConfig config_token
    (Config.mkSplunkConfig "hec-token" "https://splunk.example:8088/services/collector"
       None "crusoe:audit" "crusoe_api" true)
    100 30 3.

(** A source that answers every request with a JSON list, and a forwarder
    with a token and a store. *)
Definition source_answers_list : Crusoe.Source :=
  Crusoe.mkSource (fun _ _ => Response 200 (Some Crusoe.NotMapping)) [].

Definition forwarder_token : Main.LogForwarder :=
  Main.mkForwarder config_token 2 (Some store_recent).

Definition source_three : Crusoe.Source :=
  Crusoe.mkSource
    (fun i _ => if (i =? 0)%nat
                then Response 200 (Some (Crusoe.Mapping (Some [ev 0; ev 1])))
                else Response 200 (Some (Crusoe.Mapping (Some [ev 2]))))
    [].

(** *** The daemon's cycles *)

(** A cycle after which the daemon goes on: one that returned, or raised
    an exception that [except Exception] catches. *)
Definition goes_on (c : Main.cycle) : bool :=
  match Main.cycle_result c with
  | Ok _ => true
  | Raise e => is_Exception e
  end.

(** A state file that cannot be written or deleted, holding one record. *)
Definition world_stuck_file : World :=
  mkWorld (fun _ => 1000) 0
    (Some (Parsed (JObj [("seen_events", JObj [("h", JNum 990)])]))) false.

(** * Properties *)

(** ** Test vectors of the library models *)

Example sha256_abc :
  SHA256.hexdigest (utf8 "abc")
  = "ba7816bf8f01cfea414140de5dae2223b00361a396177a9cb410ff61f20015ad".
Proof. vm_compute. reflexivity. Qed.

Example sha256_empty :
  SHA256.hexdigest (utf8 "")
  = "e3b0c44298fc1c149afbf4c8996fb92427ae41e4649b934ca495991b7852b855".
Proof. vm_compute. reflexivity. Qed.

Example hmac_sha256_fox :
  SHA256.hex (PyLib.hmac_sha256 (utf8 "key")
                (utf8 "The quick brown fox jumps over the lazy dog"))
  = "f7bc83f430538424b13298e6aa6fb143ef4d59a14946175997479dbc2d1a3cd8".
Proof. vm_compute. reflexivity. Qed.

Example b64encode_hello :
  PyLib.urlsafe_b64encode (utf8 "hello") = "aGVsbG8=".
Proof. vm_compute. reflexivity. Qed.

Example b64decode_hello :
  PyLib.urlsafe_b64decode "aGVsbG8=" = Some (utf8 "hello").
Proof. vm_compute. reflexivity. Qed.

Example b64decode_one_char : PyLib.urlsafe_b64decode "a===" = None.
Proof. vm_compute. reflexivity. Qed.

Example b64decode_skips_foreign :
  PyLib.urlsafe_b64decode "aG!VsbG8=" = Some (utf8 "hello").
Proof. vm_compute. reflexivity. Qed.

(** ** Fingerprints *)

Lemma generate_event_hash_text (e : Event) :
  Dedup._generate_event_hash e = SHA256.hexdigest (utf8 (identity_text e)).
Proof. reflexivity. Qed.

Lemma identity_text_same (e1 e2 : Event) :
  same_identity e1 e2 -> identity_text e1 = identity_text e2.
Proof.
  unfold same_identity, identity_text. intros H.
  f_equal. induction H as [|f fs Hf _ IH]; simpl; [done|].
  by rewrite Hf, IH.
Qed.

(** A field outside the six does not enter the fingerprint. *)
Lemma generate_event_hash_other_field (e : Event) (f : string) (v : pyval) :
  f ∉ identity_fields ->
  Dedup._generate_event_hash (<[f := v]> e) = Dedup._generate_event_hash e.
Proof.
  intros Hf. rewrite !generate_event_hash_text. do 2 f_equal.
  apply identity_text_same. unfold same_identity.
  apply Forall_forall. intros g Hg. unfold Dedup.event_get.
  rewrite lookup_insert_ne; [done|]. by intros ->.
Qed.

(** C4: the fingerprint of an event is the SHA-256 hex digest of its six
    identity fields ([start_time], [actor_id], [action], [target_type],
    [target_id], [organization_id], a missing one read as the empty
    string), joined in that order with the separator [|]; hence two events
    that agree on the six fields have equal fingerprints, whatever their
    other fields. *)
Theorem C4_fingerprint_identity_fields (e1 e2 : Event) :
  same_identity e1 e2 ->
  Dedup._generate_event_hash e1 = Dedup._generate_event_hash e2
  /\ Dedup._generate_event_hash e1
     = SHA256.hexdigest (utf8 (join "|"
         [ py_str (default (PyStr "") (e1 !! "start_time"));
           py_str (default (PyStr "") (e1 !! "actor_id"));
           py_str (default (PyStr "") (e1 !! "action"));
           py_str (default (PyStr "") (e1 !! "target_type"));
           py_str (default (PyStr "") (e1 !! "target_id"));
           py_str (default (PyStr "") (e1 !! "organization_id")) ])).
Proof.
  intros H. split; [|reflexivity].
  rewrite !generate_event_hash_text. by rewrite (identity_text_same e1 e2).
Qed.

Lemma C4_fingerprint_witness :
  Dedup._generate_event_hash ev_login = Dedup._generate_event_hash ev_login'.
Proof.
  apply (C4_fingerprint_identity_fields ev_login ev_login').
  unfold same_identity, identity_fields.
  repeat constructor.
Defined.

(** ** The purge and the duplicate check *)

Lemma surviving_0 self w : surviving self w 0 = Dedup.seen_events self.
Proof.
  unfold surviving. simpl. apply map_filter_id. intros. constructor.
Qed.

Lemma surviving_subseteq self w n : surviving self w n ⊆ Dedup.seen_events self.
Proof. apply map_filter_subseteq. Qed.

Lemma surviving_add self w m n :
  surviving (Dedup.set_seen self (surviving self w m)) (advance w m) n
  = surviving self w (m + n).
Proof.
  unfold surviving at 1. simpl. unfold surviving.
  rewrite map_filter_filter. apply map_filter_ext.
  intros h ts _. simpl. rewrite seq_app, Forall_app. simpl.
  replace (seq m n) with (Nat.add m <$> seq 0 n)
    by (rewrite fmap_add_seq; f_equal; lia).
  rewrite Forall_fmap.
  split.
  - intros [H1 H2]. split; [done|].
    eapply Forall_impl; [apply H1|]. simpl. intros j Hj.
    by replace (tick w + (m + j))%nat with (tick w + m + j)%nat by lia.
  - intros [H1 H2]. split; [|done].
    eapply Forall_impl; [apply H2|]. simpl. intros j Hj.
    by replace (tick w + m + j)%nat with (tick w + (m + j))%nat by lia.
Qed.

Lemma cleanup_enabled self w :
  Dedup.enabled self = true ->
  Dedup._cleanup_old_entries self w
  = (Dedup.set_seen self (surviving self w 1), advance w 1).
Proof.
  intros He. unfold Dedup._cleanup_old_entries. rewrite He. simpl.
  unfold advance. f_equal; [|f_equal; lia].
  f_equal. unfold surviving. apply map_filter_ext.
  intros h ts _. simpl. rewrite Forall_singleton, Nat.add_0_r. done.
Qed.

Lemma is_duplicate_enabled self w e :
  Dedup.enabled self = true ->
  Dedup.is_duplicate self w e
  = (bool_decide (Dedup._generate_event_hash e ∈ dom (surviving self w 1)),
     Dedup.set_seen self (surviving self w 1), advance w 1).
Proof.
  intros He. unfold Dedup.is_duplicate. rewrite He. simpl.
  rewrite cleanup_enabled by done. simpl.
  destruct (decide _) as [H|H].
  - by rewrite bool_decide_eq_true_2.
  - by rewrite bool_decide_eq_false_2.
Qed.

Lemma kept_from_shift self w i es :
  kept_from (Dedup.set_seen self (surviving self w 1)) (advance w 1) i es
  = kept_from self w (S i) es.
Proof.
  revert i. induction es as [|e es IH]; intros i; simpl; [done|].
  rewrite (surviving_add self w 1 (S i)). simpl.
  rewrite IH. done.
Qed.

Lemma advance_advance w m n : advance (advance w m) n = advance w (m + n).
Proof. unfold advance. simpl. f_equal. lia. Qed.

Lemma advance_0 w : advance w 0 = w.
Proof. destruct w. unfold advance. simpl. f_equal. lia. Qed.

Lemma filter_loop_spec self w es acc :
  Dedup.enabled self = true ->
  Dedup.filter_loop self w es acc
  = (acc ++ kept_from self w 0 es,
     Dedup.set_seen self (surviving self w (length es)),
     advance w (length es)).
Proof.
  revert self w acc. induction es as [|e es IH]; intros self w acc He.
  - simpl. rewrite app_nil_r, surviving_0, advance_0. by destruct self.
  - simpl. rewrite is_duplicate_enabled by done.
    rewrite IH by done.
    rewrite kept_from_shift, (surviving_add self w 1 (length es)).
    rewrite advance_advance. simpl.
    unfold Dedup.set_seen at 1. simpl.
    destruct (decide _) as [H|H].
    + by rewrite bool_decide_eq_true_2.
    + rewrite bool_decide_eq_false_2 by done. by rewrite <- app_assoc.
Qed.

Lemma filter_duplicates_spec self w es :
  Dedup.enabled self = true ->
  Dedup.filter_duplicates self w es
  = (kept_from self w 0 es,
     Dedup.set_seen self (surviving self w (length es)),
     advance w (length es)).
Proof.
  intros He. unfold Dedup.filter_duplicates. rewrite He. simpl.
  by rewrite filter_loop_spec.
Qed.

Lemma kept_from_sublist self w i es : kept_from self w i es `sublist_of` es.
Proof.
  revert i. induction es as [|e es IH]; intros i; simpl; [done|].
  destruct (decide _).
  - by apply sublist_cons.
  - by apply sublist_skip.
Qed.

Lemma surviving_mono self w m n :
  (m <= n)%nat -> surviving self w n ⊆ surviving self w m.
Proof.
  intros Hmn. replace n with (m + (n - m))%nat by lia.
  rewrite <- surviving_add. apply map_filter_subseteq.
Qed.

(** Without a record the filter keeps everything. *)
Lemma kept_from_unrecorded self w i es :
  Forall (fun e => Dedup._generate_event_hash e ∉ dom (Dedup.seen_events self)) es ->
  kept_from self w i es = es.
Proof.
  intros Hall. revert i. induction Hall as [|e es He _ IH]; intros i; simpl; [done|].
  rewrite IH. destruct (decide _) as [H|H]; [|done].
  exfalso. apply He. revert H. apply subseteq_dom, surviving_subseteq.
Qed.

(** What the filter keeps is not among the records left at its end. *)
Lemma kept_from_not_surviving self w i es n :
  (i + length es <= n)%nat ->
  Forall (fun e => Dedup._generate_event_hash e ∉ dom (surviving self w n))
         (kept_from self w i es).
Proof.
  revert i. induction es as [|e es IH]; intros i Hn; simpl; [constructor|].
  simpl in Hn. destruct (decide _) as [H|H].
  - apply IH. lia.
  - constructor; [|apply IH; lia].
    intros Hin. apply H. revert Hin.
    apply subseteq_dom, surviving_mono. lia.
Qed.

Lemma kept_from_no_purge self w i es n :
  surviving self w n = Dedup.seen_events self ->
  (i + length es <= n)%nat ->
  kept_from self w i es = not_recorded self es.
Proof.
  intros Hn. unfold not_recorded.
  revert i. induction es as [|e es IH]; intros i Hi; simpl; [done|].
  simpl in Hi.
  assert (surviving self w (S i) = Dedup.seen_events self) as Hs.
  { apply (anti_symm (⊆)); [apply surviving_subseteq|].
    rewrite <- Hn at 1. apply surviving_mono. lia. }
  rewrite Hs, filter_cons, IH by lia.
  destruct (decide (_ ∈ _)) as [H|H]; destruct (decide (_ ∉ _)) as [H'|H'];
    done.
Qed.

(** ** C8: the duplicate filter *)

(** C8, as stated, fails: a store holding an expired record of an event
    returns that event although its fingerprint is recorded, and the
    recorded set changes. *)
Lemma C8_counterexample :
  ~ (forall self w events,
       Dedup.enabled self = true ->
       (Dedup.filter_duplicates self w events).1.1 = not_recorded self events
       /\ Dedup.seen_events (Dedup.filter_duplicates self w events).1.2
          = Dedup.seen_events self).
Proof.
  intros H.
  destruct (H store_stale world_1000 [ev_login] eq_refl) as [H1 _].
  vm_compute in H1. discriminate H1.
Qed.

(** C8, amended: for every enabled store and every event list,
    [filter_duplicates] returns, in their original relative order, exactly
    the events whose fingerprint is not recorded once the expired records
    have been purged at the time of that event's check; it never records a
    fingerprint, and its only effect on the recorded set is that purge, so
    that when nothing expires it returns exactly the events whose
    fingerprint is not recorded and leaves the set as it was; applied to
    its own output, in the store it left, it returns that output
    unchanged. *)
Theorem C8_filter_duplicates_purges_then_filters self w events :
  Dedup.enabled self = true ->
  exists self' w',
    Dedup.filter_duplicates self w events
      = (kept_from self w 0 events, self', w')
    /\ kept_from self w 0 events `sublist_of` events
    /\ Dedup.seen_events self' = surviving self w (length events)
    /\ Dedup.seen_events self' ⊆ Dedup.seen_events self
    /\ (surviving self w (length events) = Dedup.seen_events self ->
        kept_from self w 0 events = not_recorded self events)
    /\ forall w2,
         (Dedup.filter_duplicates self' w2 (kept_from self w 0 events)).1.1
         = kept_from self w 0 events.
Proof.
  intros He. eexists _, _. split; [by apply filter_duplicates_spec|].
  split; [apply kept_from_sublist|].
  split; [done|]. split; [apply surviving_subseteq|].
  split.
  - intros Hn. by apply (kept_from_no_purge self w 0 events (length events)).
  - intros w2. rewrite filter_duplicates_spec by done. simpl.
    apply kept_from_unrecorded. simpl.
    by apply kept_from_not_surviving.
Qed.

Lemma C8_filter_duplicates_witness :
  (Dedup.filter_duplicates store_stale world_1000 [ev_login; ev_login']).1.1
  = [ev_login; ev_login'].
Proof.
  destruct (C8_filter_duplicates_purges_then_filters
              store_stale world_1000 [ev_login; ev_login'] eq_refl)
    as (self' & w' & -> & _).
  vm_compute. reflexivity.
Defined.

(** ** C10: no suppression inside one input *)

Lemma kept_from_app self w i l1 l2 :
  kept_from self w i (l1 ++ l2)
  = kept_from self w i l1 ++ kept_from self w (i + length l1) l2.
Proof.
  revert i. induction l1 as [|e l1 IH]; intros i; simpl.
  - by rewrite Nat.add_0_r.
  - rewrite IH. replace (S i + length l1)%nat with (i + S (length l1))%nat by lia.
    by destruct (decide _).
Qed.

Lemma kept_from_cons_unrecorded self w i e es :
  Dedup._generate_event_hash e ∉ dom (Dedup.seen_events self) ->
  kept_from self w i (e :: es) = e :: kept_from self w (S i) es.
Proof.
  intros He. simpl. destruct (decide _) as [H|H]; [|done].
  exfalso. apply He. revert H. apply subseteq_dom, surviving_subseteq.
Qed.

(** An event is dropped only for a record made before the call. *)
Lemma kept_from_dropped self w i es e :
  e ∈ es -> e ∉ kept_from self w i es ->
  Dedup._generate_event_hash e ∈ dom (Dedup.seen_events self).
Proof.
  revert i. induction es as [|x es IH]; intros i Hin Hout.
  - by apply elem_of_nil in Hin.
  - simpl in Hout. destruct (decide _) as [H|H].
    + apply elem_of_cons in Hin as [->|Hin]; [|by eapply IH].
      revert H. apply subseteq_dom, surviving_subseteq.
    + apply not_elem_of_cons in Hout as [Hne Hout].
      apply elem_of_cons in Hin as [->|Hin]; [done|]. by eapply IH.
Qed.

Lemma same_identity_hash e1 e2 :
  same_identity e1 e2 ->
  Dedup._generate_event_hash e1 = Dedup._generate_event_hash e2.
Proof.
  intros H. rewrite !generate_event_hash_text. by rewrite (identity_text_same e1 e2).
Qed.

(** ** Marking events as sent, and the check that follows *)

Lemma mark_loop_lookup seen t es h :
  Dedup.mark_loop seen t es !! h
  = match seen !! h with
    | Some ts => Some ts
    | None =>
        if decide (h ∈ map Dedup._generate_event_hash es) then Some t else None
    end.
Proof.
  revert seen. induction es as [|e es IH]; intros seen; simpl.
  - by destruct (seen !! h).
  - rewrite IH. clear IH.
    set (hs := map Dedup._generate_event_hash es).
    set (he := Dedup._generate_event_hash e).
    assert (h ∈ he :: hs <-> h = he \/ h ∈ hs) as Hc by apply elem_of_cons.
    destruct (decide (he ∈ dom seen)) as [Hd|Hd].
    + destruct (seen !! h) eqn:Hs; [done|].
      destruct (decide (h ∈ hs)) as [H1|H1];
        destruct (decide (h ∈ he :: hs)) as [H2|H2]; try done.
      * exfalso. apply H2, Hc. by right.
      * apply Hc in H2 as [->|H2]; [|done].
        apply elem_of_dom in Hd as [ts Hts]. congruence.
    + destruct (decide (h = he)) as [->|Hne].
      * rewrite lookup_insert_eq.
        apply not_elem_of_dom in Hd. rewrite Hd.
        destruct (decide (he ∈ he :: hs)) as [H2|H2]; [done|].
        exfalso. apply H2, Hc. by left.
      * rewrite lookup_insert_ne by done.
        destruct (seen !! h); [done|].
        destruct (decide (h ∈ hs)) as [H1|H1];
          destruct (decide (h ∈ he :: hs)) as [H2|H2]; try done.
        -- exfalso. apply H2, Hc. by right.
        -- by apply Hc in H2 as [->|H2].
Qed.

Section MarkAndCheck.

Variable isoformat : Z -> string.

(** After [mark_events_as_sent], the fingerprint of each event is recorded:
    with the time of the call, or with the time it was recorded before. *)
Lemma mark_records self w events e :
  Dedup.enabled self = true -> e ∈ events ->
  Dedup.seen_events (Dedup.mark_events_as_sent isoformat self w events).1
    !! Dedup._generate_event_hash e
  = Some (default (clock w (tick w))
            (Dedup.seen_events self !! Dedup._generate_event_hash e)).
Proof.
  intros He Hin. unfold Dedup.mark_events_as_sent. rewrite He. simpl.
  rewrite bool_decide_eq_false_2 by (intros ->; by apply elem_of_nil in Hin).
  simpl. rewrite mark_loop_lookup.
  destruct (Dedup.seen_events self !! _); [done|]. simpl.
  case_decide as H; [done|].
  exfalso. apply H. apply list_elem_of_fmap. by exists e.
Qed.

(** ... and the full state is written to the state file, when the file can
    be written. *)
Lemma mark_persists self w events :
  Dedup.enabled self = true -> events <> [] -> disk_writable w = true ->
  let r := Dedup.mark_events_as_sent isoformat self w events in
  disk r.2
  = Some (Parsed (Dedup.state_document isoformat r.1 (clock w (S (tick w))))).
Proof.
  intros He Hne Hw. unfold Dedup.mark_events_as_sent. rewrite He. simpl.
  rewrite bool_decide_eq_false_2 by done. simpl.
  unfold Dedup._save_state. simpl. rewrite He. simpl. by rewrite Hw.
Qed.

(** The check that follows finds the record exactly while the record is
    younger than the tracking window. *)
Lemma is_duplicate_after_mark self w events e e' :
  Dedup.enabled self = true -> e ∈ events -> same_identity e e' ->
  let r := Dedup.mark_events_as_sent isoformat self w events in
  let record_time :=
    default (clock w (tick w))
      (Dedup.seen_events self !! Dedup._generate_event_hash e) in
  (Dedup.is_duplicate r.1 r.2 e').1.1
  = bool_decide (clock r.2 (tick r.2) - record_time
                 < Dedup.tracking_window_seconds self).
Proof.
  intros He Hin Hid. simpl.
  pose proof (mark_records self w events e He Hin) as Hrec.
  set (r := Dedup.mark_events_as_sent isoformat self w events) in *.
  assert (Dedup.enabled r.1 = true /\
          Dedup.tracking_window_seconds r.1 = Dedup.tracking_window_seconds self)
    as [He1 Hw1].
  { unfold r, Dedup.mark_events_as_sent. rewrite He. simpl.
    by destruct (bool_decide _). }
  rewrite is_duplicate_enabled by done. simpl.
  rewrite <- (same_identity_hash e e') by done.
  apply bool_decide_ext. rewrite elem_of_dom. unfold surviving.
  split.
  - intros [ts Hts]. apply map_lookup_filter_Some in Hts as [Hts Hf].
    simpl in Hf. rewrite Forall_singleton, Nat.add_0_r in Hf.
    rewrite Hrec in Hts. inversion Hts; subst ts. lia.
  - intros Hlt. eexists. apply map_lookup_filter_Some. split; [apply Hrec|].
    simpl. rewrite Forall_singleton, Nat.add_0_r. lia.
Qed.

End MarkAndCheck.

(** With a clock that does not run backwards, checks made in between do
    not matter: the check after [n] others finds a record exactly while the
    record is younger than the tracking window at that check. *)
Lemma is_duplicate_after_checks self w es e :
  Dedup.enabled self = true -> monotone_clock w ->
  let r := Dedup.filter_duplicates self w es in
  (Dedup.is_duplicate r.1.2 r.2 e).1.1 = true
  <-> exists ts,
      Dedup.seen_events self !! Dedup._generate_event_hash e = Some ts
      /\ clock r.2 (tick r.2) - ts < Dedup.tracking_window_seconds self.
Proof.
  intros He Hmono. simpl. rewrite filter_duplicates_spec by done. simpl.
  rewrite is_duplicate_enabled by done. simpl.
  rewrite (surviving_add self w (length es) 1).
  rewrite bool_decide_eq_true, elem_of_dom. unfold surviving.
  split.
  - intros [ts Hts]. apply map_lookup_filter_Some in Hts as [Hts Hf].
    exists ts. split; [done|]. simpl in Hf.
    rewrite Forall_forall in Hf.
    specialize (Hf (length es)). rewrite elem_of_seq in Hf.
    specialize (Hf ltac:(lia)). lia.
  - intros (ts & Hts & Hlt). exists ts.
    apply map_lookup_filter_Some. split; [done|]. simpl.
    apply Forall_forall. intros j Hj. apply elem_of_seq in Hj.
    pose proof (Hmono (tick w + j)%nat (tick w + length es)%nat ltac:(lia)).
    lia.
Qed.

(** ** C3: a record whose age equals the tracking window *)

(** C3, evaluated where it fails: an event is marked as sent at time 1000
    in an empty store with a tracking window of 100; its fingerprint is
    recorded with time 1000 and the state is written to the state file. A
    duplicate check at time 1100, when the record's age is exactly the
    window (so [t - record_time <= tracking_window_seconds]), purges the
    record and answers [false] for an event with the same six identity
    fields. *)
Theorem C3_record_purged_at_window_age (isoformat : Z -> string) :
  let r := Dedup.mark_events_as_sent isoformat (Dedup.mkDedup 100 true ∅)
             world_boundary [ev_login] in
  Dedup.seen_events r.1 !! Dedup._generate_event_hash ev_login = Some 1000
  /\ disk r.2 = Some (Parsed (Dedup.state_document isoformat r.1 1000))
  /\ clock r.2 (tick r.2) - 1000 <= Dedup.tracking_window_seconds r.1
  /\ same_identity ev_login ev_login'
  /\ (Dedup.is_duplicate r.1 r.2 ev_login').1.1 = false.
Proof.
  intros r. split; [|split; [|split; [|split]]].
  - subst r. rewrite mark_records; [done..|]. apply list_elem_of_singleton. done.
  - subst r. by rewrite mark_persists.
  - vm_compute. discriminate.
  - unfold same_identity, identity_fields. repeat constructor.
  - subst r.
    rewrite (is_duplicate_after_mark isoformat _ _ _ ev_login ev_login').
    + vm_compute. reflexivity.
    + done.
    + apply list_elem_of_singleton. done.
    + unfold same_identity, identity_fields. repeat constructor.
Qed.

(** ** C9: loading the state file *)

Section Load.

Variable float_of_str : string -> option Z.

Lemma py_float_raises v e :
  Dedup.py_float float_of_str v = Raise e -> is_Exception e = true.
Proof.
  destruct v; simpl; try discriminate; try (intros [= <-]; done).
  destruct (float_of_str s); [discriminate|]. by intros [= <-].
Qed.

Lemma convert_items items :
  match mapM_result (Dedup.convert_item float_of_str) items with
  | Ok _ => forallb (fun p => converts float_of_str p.2) items = true
  | Raise e =>
      forallb (fun p => converts float_of_str p.2) items = false
      /\ is_Exception e = true
  end.
Proof.
  induction items as [|[h v] items IH]; simpl; [done|].
  unfold converts at 1 3. simpl.
  destruct (Dedup.py_float float_of_str v) eqn:Hv; simpl.
  - destruct (mapM_result _ items); simpl; [done|]. done.
  - split; [done|]. by eapply py_float_raises.
Qed.

Lemma load_state_total self w :
  exists self' w',
    Dedup._load_state float_of_str self w = Ok (self', w')
    /\ Dedup.tracking_window_seconds self' = Dedup.tracking_window_seconds self
    /\ Dedup.enabled self' = Dedup.enabled self
    /\ (Dedup.enabled self = false -> self' = self)
    /\ (Dedup.enabled self = true ->
        match disk w with
        | None => self' = self
        | Some Unreadable | Some Unparseable => Dedup.seen_events self' = ∅
        | Some (Parsed data) =>
            if well_formed_state float_of_str data then True
            else Dedup.seen_events self' = ∅
        end).
Proof.
  unfold Dedup._load_state.
  destruct (Dedup.enabled self) eqn:He; simpl; [|by eexists _, _].
  destruct (disk w) as [[| |data]|] eqn:Hd; simpl;
    try (by eexists _, _).
  destruct data as [| | | | |kv]; simpl; try (by eexists _, _).
  destruct (default (JObj []) (assoc_last "seen_events" kv))
    as [| | | | |items]; simpl; try (by eexists _, _).
  pose proof (convert_items (Dedup.dict_items items)) as Hc.
  destruct (mapM_result _ (Dedup.dict_items items)) as [l|e]; simpl.
  - rewrite Hc. unfold Dedup._cleanup_old_entries. simpl. rewrite He. simpl.
    by eexists _, _.
  - destruct Hc as [-> He']. unfold try_except.
    destruct (Dedup.catches_decode_errors e); simpl.
    + by eexists _, _.
    + rewrite He'. by eexists _, _.
Qed.

(** C9: whatever the state file holds, loading it when the store is
    constructed does not raise; when the file is absent, cannot be read or
    parsed, does not have the expected shape, or holds a timestamp that
    [float] rejects, the store starts with no record. *)
Theorem C9_state_file_load_never_raises window en w :
  exists d w',
    Dedup.init float_of_str window en w = Ok (d, w')
    /\ Dedup.tracking_window_seconds d = window
    /\ Dedup.enabled d = en
    /\ match disk w with
       | None | Some Unreadable | Some Unparseable => Dedup.seen_events d = ∅
       | Some (Parsed data) =>
           if well_formed_state float_of_str data then True
           else Dedup.seen_events d = ∅
       end.
Proof.
  unfold Dedup.init.
  destruct (load_state_total (Dedup.mkDedup window en ∅) w)
    as (d & w' & Heq & Hw & He & Hoff & Hon).
  exists d, w'. simpl in *. do 3 (split; [done|]).
  destruct en.
  - specialize (Hon eq_refl).
    destruct (disk w) as [[| |data]|]; try done. by subst d.
  - rewrite (Hoff eq_refl). simpl.
    destruct (disk w) as [[| |data]|]; try done.
    by destruct (well_formed_state _ _).
Qed.

End Load.

Example load_state_bad_timestamp :
  Dedup.init float_of_digits 390 true
    (mkWorld (fun _ => 1700000100) 0 (Some (Parsed state_with_bad_timestamp)) true)
  = Ok (Dedup.mkDedup 390 true ∅,
        mkWorld (fun _ => 1700000100) 0 (Some (Parsed state_with_bad_timestamp)) true).
Proof. reflexivity. Qed.

Example load_state_good :
  Dedup.seen_events
    (match Dedup.init float_of_digits 390 true
             (mkWorld (fun _ => 1700000100) 0
                (Some (Parsed (JObj [("seen_events",
                   JObj [("ab12", JNum 1700000000); ("cd34", JStr "1700000000");
                         ("ef56", JNum 1600000000)])])))
                true)
     with Ok (d, _) => d | Raise _ => Dedup.mkDedup 0 false ∅ end)
  = {[ "ab12" := 1700000000; "cd34" := 1700000000 ]}.
Proof. vm_compute. reflexivity. Qed.

(** ** Chunks *)

Lemma chunks_fuel_enough {A} (f n : nat) (l : list A) :
  (0 < n)%nat -> (length l <= f)%nat -> chunks_fuel f n l = chunks n l.
Proof.
  intros Hn. unfold chunks.
  remember (length l) as m eqn:Hm. revert f l Hm.
  induction m as [m IH] using lt_wf_ind. intros f l Hm Hf.
  destruct l as [|x l]; [by destruct f; subst m|].
  destruct f as [|f]; [simpl in *; lia|].
  subst m. simpl length. cbn [chunks_fuel]. f_equal.
  assert (length (drop n (x :: l)) < length (x :: l))%nat as Hlt
    by (rewrite length_drop; simpl; lia).
  rewrite (IH _ Hlt f _ eq_refl) by (simpl in *; lia).
  rewrite (IH _ Hlt (length l) _ eq_refl); [done|].
  rewrite length_drop. simpl. lia.
Qed.

Lemma chunks_nil {A} (n : nat) : chunks n (@nil A) = [].
Proof. done. Qed.

Lemma chunks_cons {A} (n : nat) (l : list A) :
  (0 < n)%nat -> l <> [] -> chunks n l = take n l :: chunks n (drop n l).
Proof.
  intros Hn Hl. destruct l as [|x l]; [done|].
  unfold chunks at 1. simpl length. cbn [chunks_fuel]. f_equal.
  apply chunks_fuel_enough; [done|]. rewrite length_drop. simpl. lia.
Qed.

(** The chunks put together give back the list, in order. *)
Lemma chunks_concat {A} (n : nat) (l : list A) :
  (0 < n)%nat -> concat (chunks n l) = l.
Proof.
  intros Hn. remember (length l) as m eqn:Hm. revert l Hm.
  induction m as [m IH] using lt_wf_ind. intros l Hm.
  destruct (decide (l = [])) as [->|Hl]; [done|].
  rewrite chunks_cons by done. simpl.
  rewrite (IH (length (drop n l))); [apply take_drop| |done].
  rewrite length_drop. destruct l; [done|]. simpl in *. lia.
Qed.

(** The sizes of the chunks: [n] each, but for a smaller last one when [n]
    does not divide the length. *)
Lemma chunks_lengths {A} (n : nat) (l : list A) :
  (0 < n)%nat ->
  map length (chunks n l)
  = repeat n (length l / n)
    ++ (if decide (length l mod n = 0)%nat then [] else [(length l mod n)%nat]).
Proof.
  intros Hn. remember (length l) as m eqn:Hm. revert l Hm.
  induction m as [m IH] using lt_wf_ind. intros l Hm.
  destruct (decide (l = [])) as [->|Hl].
  { simpl in Hm. subst m. rewrite Nat.Div0.div_0_l, Nat.Div0.mod_0_l. done. }
  assert (0 < m)%nat as Hpos by (destruct l; [done|]; simpl in Hm; lia).
  rewrite chunks_cons by done. cbn [map].
  destruct (decide (m < n)%nat) as [Hlt|Hge].
  - rewrite take_ge, drop_ge by lia. rewrite chunks_nil. simpl.
    rewrite Nat.div_small, Nat.mod_small by lia. simpl.
    rewrite decide_False by lia. by rewrite <- Hm.
  - rewrite length_take, <- Hm, Nat.min_l by lia.
    rewrite (IH (m - n)%nat); [|lia|by rewrite length_drop, <- Hm].
    assert (m / n = S ((m - n) / n))%nat as Hdiv.
    { replace m with ((m - n) + 1 * n)%nat at 1 by lia.
      rewrite Nat.div_add by lia. lia. }
    assert (m mod n = (m - n) mod n)%nat as Hmod.
    { replace m with ((m - n) + 1 * n)%nat at 1 by lia.
      by rewrite Nat.Div0.mod_add. }
    rewrite Hdiv, Hmod. done.
Qed.

Lemma chunks_by_index {A} (n : nat) (l : list A) :
  (0 < n)%nat ->
  map (fun i => take n (drop i l))
      (map (fun k => k * n)%nat (seq 0 ((length l + n - 1) / n)))
  = chunks n l.
Proof.
  intros Hn. remember (length l) as m eqn:Hm. revert l Hm.
  induction m as [m IH] using lt_wf_ind. intros l Hm.
  destruct (decide (l = [])) as [->|Hl].
  { simpl in Hm. subst m. simpl. by rewrite Nat.div_small by lia. }
  assert (0 < m)%nat as Hpos by (destruct l; [done|]; simpl in Hm; lia).
  assert ((m + n - 1) / n = S ((m - n + n - 1) / n))%nat as Hdiv.
  { destruct (decide (m <= n)%nat).
    - replace (m - n + n - 1)%nat with (n - 1)%nat by lia.
      rewrite (Nat.div_small (n - 1)) by lia.
      replace (m + n - 1)%nat with ((m - 1) + 1 * n)%nat by lia.
      rewrite Nat.div_add, Nat.div_small by lia. done.
    - replace (m + n - 1)%nat with ((m - n + n - 1) + 1 * n)%nat by lia.
      rewrite Nat.div_add by lia. lia. }
  rewrite Hdiv, chunks_cons by done.
  cbn [seq map]. rewrite Nat.mul_0_l, drop_0. f_equal.
  rewrite <- (IH (m - n)%nat); [|lia|by rewrite length_drop, <- Hm].
  rewrite <- seq_shift, !map_map. apply map_ext. intros k.
  rewrite drop_drop. do 2 f_equal; lia.
Qed.

Lemma py_range_nat {A} (l : list A) (batch_size : Z) :
  0 < batch_size ->
  py_range (len l) batch_size
  = map (fun k => Z.of_nat (k * Z.to_nat batch_size))
        (seq 0 ((length l + Z.to_nat batch_size - 1) / Z.to_nat batch_size)).
Proof.
  intros Hb. unfold py_range, len.
  assert ((0 <? batch_size) = true) as -> by (apply Z.ltb_lt; lia).
  set (n := Z.to_nat batch_size).
  assert (batch_size = Z.of_nat n) as Hbn by lia.
  assert (Z.to_nat ((Z.of_nat (length l) + batch_size - 1) / batch_size)
          = ((length l + n - 1) / n)%nat) as Hc.
  { rewrite Hbn.
    replace (Z.of_nat (length l) + Z.of_nat n - 1)
      with (Z.of_nat (length l + n - 1)) by lia.
    rewrite <- Nat2Z.inj_div. apply Nat2Z.id. }
  unfold seqZ. rewrite Hc, <- list_fmap_compose.
  apply map_ext. intros k. simpl. lia.
Qed.

(** The batches that the loop of [send_events_batch] cuts are the chunks. *)
Lemma batches_are_chunks {A} (l : list A) (batch_size : Z) :
  0 < batch_size ->
  map (fun i => py_slice l i (i + batch_size)) (py_range (len l) batch_size)
  = chunks (Z.to_nat batch_size) l.
Proof.
  intros Hb. rewrite py_range_nat by done.
  rewrite <- chunks_by_index by lia.
  rewrite !map_map. apply map_ext. intros k. unfold py_slice.
  f_equal; [lia|]. f_equal. lia.
Qed.

(** ** Sending one chunk *)

Lemma send_events_result sink entries :
  entries <> [] ->
  let answer := Splunk.post sink (length (Splunk.requests sink)) entries in
  Splunk.send_events sink entries
  = (if delivery_confirmed answer then Ok true
     else if hec_answer answer then Raise SplunkHECError
     else Raise AttributeError,
     Splunk.mkSink (Splunk.post sink) (Splunk.requests sink ++ [entries])).
Proof.
  intros Hne. simpl. unfold Splunk.send_events.
  rewrite bool_decide_eq_false_2 by done. simpl.
  f_equal.
  destruct (Splunk.post sink _ entries) as [|status body]; simpl; [done|].
  unfold raise_for_status.
  destruct ((400 <=? status) && (status <? 600)) eqn:Hs; simpl.
  { destruct body as [[| | | | |kv]|]; simpl; try done. }
  destruct body as [[| | | | |kv]|]; simpl; try done.
  destruct (assoc_last "text" kv) as [[| | |text| |]|]; simpl; try done.
  destruct (bool_decide (text = "Success")) eqn:Ht.
  - apply bool_decide_eq_true in Ht. by subst text.
  - apply bool_decide_eq_false in Ht.
    destruct text as [|a1 text]; [done|].
    repeat (first [ done
                  | match goal with
                    | |- context [match ?a with Ascii _ _ _ _ _ _ _ _ => _ end] =>
                        destruct a as [[] [] [] [] [] [] [] []]
                    | |- context [match ?t with EmptyString => _ | String _ _ => _ end] =>
                        destruct t
                    end ]).
Qed.

(** ** Sending in batches *)

Lemma confirmed_chunks_post sink sink' i cs :
  Splunk.post sink = Splunk.post sink' ->
  confirmed_chunks sink i cs = confirmed_chunks sink' i cs.
Proof.
  intros Hp. revert i. induction cs as [|c cs IH]; intros i; simpl; [done|].
  by rewrite Hp, IH.
Qed.

Lemma hec_answers_post sink sink' i cs :
  Splunk.post sink = Splunk.post sink' ->
  hec_answers sink i cs -> hec_answers sink' i cs.
Proof.
  intros Hp. revert i. induction cs as [|c cs IH]; intros i; simpl; [done|].
  rewrite Hp. intros [H1 H2]. split; [done|]. by apply IH.
Qed.

Lemma batch_loop_spec starts log_entries batch_size total_sent sent sink :
  let batches :=
    map (fun i => py_slice log_entries i (i + batch_size)) starts in
  let confirmed :=
    concat (confirmed_chunks sink (length (Splunk.requests sink)) batches) in
  Forall (fun b => b <> []) batches ->
  hec_answers sink (length (Splunk.requests sink)) batches ->
  Splunk.batch_loop starts log_entries batch_size total_sent sent sink
  = (Ok (total_sent + len confirmed, sent ++ confirmed),
     Splunk.mkSink (Splunk.post sink) (Splunk.requests sink ++ batches)).
Proof.
  simpl. revert total_sent sent sink.
  induction starts as [|i starts IH]; intros total_sent sent sink Hne Hans.
  - simpl. unfold len. simpl. rewrite Z.add_0_r, !app_nil_r. by destruct sink.
  - cbn [map] in *. apply Forall_cons in Hne as [Hb Hne].
    destruct Hans as [Ha Hans].
    cbn [Splunk.batch_loop]. rewrite send_events_result by done.
    set (b := py_slice log_entries i (i + batch_size)) in *.
    set (sink1 := Splunk.mkSink (Splunk.post sink) (Splunk.requests sink ++ [b])).
    assert (length (Splunk.requests sink1) = S (length (Splunk.requests sink)))
      as Hlen by (simpl; rewrite length_app; simpl; lia).
    assert (Splunk.post sink1 = Splunk.post sink) as Hpost by done.
    cbn [confirmed_chunks].
    destruct (delivery_confirmed _) eqn:Hc.
    + rewrite IH; [|done|rewrite Hlen; by apply (hec_answers_post sink)].
      rewrite Hlen, (confirmed_chunks_post sink1 sink) by done.
      simpl. unfold len. rewrite !length_app, <- !app_assoc. simpl.
      do 2 f_equal. f_equal. lia.
    + rewrite Ha. simpl.
      rewrite IH; [|done|rewrite Hlen; by apply (hec_answers_post sink)].
      rewrite Hlen, (confirmed_chunks_post sink1 sink) by done.
      simpl. by rewrite <- !app_assoc.
Qed.

Lemma chunks_nonempty {A} (n : nat) (l : list A) :
  (0 < n)%nat -> Forall (fun c => c <> []) (chunks n l).
Proof.
  intros Hn. remember (length l) as m eqn:Hm. revert l Hm.
  induction m as [m IH] using lt_wf_ind. intros l Hm.
  destruct (decide (l = [])) as [->|Hl]; [constructor|].
  rewrite chunks_cons by done. constructor.
  - destruct l; [done|]. destruct n; [lia|]. done.
  - apply (IH (length (drop n l))); [|done].
    rewrite length_drop. destruct l; [done|]. simpl in *. lia.
Qed.

(** [send_events_batch] with a positive batch size, against a collector
    that keeps to the protocol. *)
Lemma send_events_batch_spec sink log_entries batch_size :
  0 < batch_size ->
  let cs := chunks (Z.to_nat batch_size) log_entries in
  let confirmed :=
    concat (confirmed_chunks sink (length (Splunk.requests sink)) cs) in
  hec_answers sink (length (Splunk.requests sink)) cs ->
  Splunk.send_events_batch sink log_entries batch_size
  = (Ok (len confirmed, confirmed),
     Splunk.mkSink (Splunk.post sink) (Splunk.requests sink ++ cs)).
Proof.
  intros Hb cs confirmed Hans. unfold Splunk.send_events_batch.
  destruct (decide (log_entries = [])) as [->|Hne].
  - simpl. subst cs confirmed. simpl. rewrite app_nil_r. by destruct sink.
  - rewrite bool_decide_eq_false_2 by done.
    rewrite bool_decide_eq_false_2 by lia.
    rewrite batch_loop_spec; rewrite batches_are_chunks by done.
    + done.
    + apply chunks_nonempty. lia.
    + done.
Qed.

Lemma batch_loop_app s1 s2 log_entries batch_size total_sent sent sink :
  Splunk.batch_loop (s1 ++ s2) log_entries batch_size total_sent sent sink
  = match Splunk.batch_loop s1 log_entries batch_size total_sent sent sink with
    | (Ok (total_sent1, sent1), sink1) =>
        Splunk.batch_loop s2 log_entries batch_size total_sent1 sent1 sink1
    | (Raise e, sink1) => (Raise e, sink1)
    end.
Proof.
  revert total_sent sent sink.
  induction s1 as [|i s1 IH]; intros total_sent sent sink; [done|].
  cbn [app Splunk.batch_loop].
  destruct (Splunk.send_events sink _) as [[b|e] sink1]; [apply IH|].
  destruct (is_SplunkHECError e); [apply IH|done].
Qed.

Lemma hec_answers_app sink i cs1 cs2 :
  hec_answers sink i (cs1 ++ cs2)
  <-> hec_answers sink i cs1 /\ hec_answers sink (i + length cs1) cs2.
Proof.
  revert i. induction cs1 as [|c cs1 IH]; intros i; simpl.
  - rewrite Nat.add_0_r. tauto.
  - rewrite IH. replace (S i + length cs1)%nat with (i + S (length cs1))%nat by lia.
    tauto.
Qed.

Lemma delivery_confirmed_hec answer :
  delivery_confirmed answer = true -> hec_answer answer = true.
Proof. by destruct answer as [|status [[| | | | |kv]|]]. Qed.

(** Either every chunk gets an answer the protocol allows for, or there is
    a first chunk that does not. *)
Lemma hec_answers_or_first_foreign sink i cs :
  hec_answers sink i cs
  \/ exists before c after,
       cs = before ++ c :: after
       /\ hec_answers sink i before
       /\ hec_answer (Splunk.post sink (i + length before) c) = false.
Proof.
  revert i. induction cs as [|c cs IH]; intros i; simpl; [by left|].
  destruct (hec_answer (Splunk.post sink i c)) eqn:Hc.
  - destruct (IH (S i)) as [Hall|(before & c' & after & -> & Hb & Hc')].
    + by left.
    + right. exists (c :: before), c', after. simpl.
      split; [done|]. split; [done|].
      by replace (i + S (length before))%nat with (S i + length before)%nat
        by lia.
  - right. exists [], c, cs. simpl. rewrite Nat.add_0_r. by repeat split.
Qed.

(** The first answer that is JSON but not a mapping, with a status that is
    no error, ends the batch send with [AttributeError]. *)
Lemma send_events_batch_first_foreign sink log_entries batch_size before c after :
  0 < batch_size ->
  chunks (Z.to_nat batch_size) log_entries = before ++ c :: after ->
  hec_answers sink (length (Splunk.requests sink)) before ->
  hec_answer
    (Splunk.post sink (length (Splunk.requests sink) + length before) c)
  = false ->
  (Splunk.send_events_batch sink log_entries batch_size).1
  = Raise AttributeError
  /\ Splunk.requests (Splunk.send_events_batch sink log_entries batch_size).2
     = Splunk.requests sink ++ before ++ [c].
Proof.
  intros Hb Hcs Hbefore Hc.
  assert (log_entries <> []) as Hne.
  { intros ->. rewrite chunks_nil in Hcs. by destruct before. }
  pose proof (chunks_nonempty (Z.to_nat batch_size) log_entries ltac:(lia))
    as Hcne.
  rewrite Hcs in Hcne. apply Forall_app in Hcne as [Hne1 Hne2].
  apply Forall_cons in Hne2 as [Hcne _].
  unfold Splunk.send_events_batch.
  rewrite bool_decide_eq_false_2 by done.
  rewrite bool_decide_eq_false_2 by lia.
  pose proof (batches_are_chunks log_entries batch_size Hb) as Hbatches.
  rewrite Hcs in Hbatches.
  apply fmap_app_inv in Hbatches as (s1 & s2 & Hs1 & Hs2 & Hstarts).
  destruct s2 as [|i s2]; [done|]. injection Hs2 as Hi Hs2.
  rewrite Hstarts, batch_loop_app.
  pose proof (batch_loop_spec s1 log_entries batch_size 0 [] sink) as Hspec.
  cbv zeta in Hspec. change (map ?f s1) with (f <$> s1) in Hspec.
  rewrite <- Hs1 in Hspec. rewrite Hspec by done.
  cbn [Splunk.batch_loop]. rewrite <- Hi.
  rewrite send_events_result by done. simpl.
  rewrite length_app.
  assert (delivery_confirmed
            (Splunk.post sink (length (Splunk.requests sink) + length before) c)
          = false) as Hd.
  { destruct (delivery_confirmed _) eqn:Hd; [|done].
    apply delivery_confirmed_hec in Hd. congruence. }
  rewrite Hd, Hc. simpl. by rewrite <- app_assoc.
Qed.

Lemma chunks_250_100 {A} (l : list A) :
  length l = 250%nat ->
  chunks 100 l = [take 100 l; take 100 (drop 100 l); drop 200 l].
Proof.
  intros Hl.
  assert (forall k, (k < 250)%nat -> drop k l <> []) as Hne.
  { intros k Hk Heq. apply (f_equal length) in Heq.
    rewrite length_drop in Heq. simpl in Heq. lia. }
  rewrite chunks_cons; [|lia|by apply (Hne 0%nat); lia].
  rewrite chunks_cons; [|lia|by apply Hne; lia].
  rewrite drop_drop. simpl.
  rewrite chunks_cons; [|lia|by apply Hne; lia].
  rewrite drop_drop. simpl.
  rewrite (take_ge (drop 200 l)) by (rewrite length_drop; lia).
  rewrite (drop_ge l 300) by lia. done.
Qed.

(** ** C1: partial success of a batch send *)

(** C1: what [send_events_batch] does on every input. With a positive
    batch size the entries are cut into consecutive chunks of [batch_size]
    events, the last one possibly smaller. When every chunk gets an answer
    the protocol allows for, every chunk is posted, in order, also after a
    chunk that failed, and the accepted events are the confirmed chunks
    put together in order, their number being the accepted count. But the
    first chunk answered with a status that is no error and a JSON body
    that is not a mapping ends the call: [send_events] raises
    [AttributeError], which the loop does not catch, the chunks after it
    are never posted, and the chunks confirmed before it are not
    reported. With 250 entries and a batch size of 100 the chunks hold
    100, 100 and 50 events; when only the second fails with an answer of
    the protocol, 150 events are accepted, the first and third chunk; when
    it fails with such a foreign answer, the call raises after two posts.
    A batch size of zero raises [ZeroDivisionError] before any post, and a
    negative one posts nothing and reports no event. *)
Theorem C1_send_events_batch_outcomes sink log_entries batch_size :
  let n := Z.to_nat batch_size in
  let cs := chunks n log_entries in
  let base := length (Splunk.requests sink) in
  let r := Splunk.send_events_batch sink log_entries batch_size in
  (0 < batch_size ->
     concat cs = log_entries
     /\ map length cs
        = repeat n (length log_entries / n)
          ++ (if decide (length log_entries mod n = 0)%nat then []
              else [(length log_entries mod n)%nat])
     /\ (hec_answers sink base cs ->
         r.1 = Ok (len (concat (confirmed_chunks sink base cs)),
                   concat (confirmed_chunks sink base cs))
         /\ Splunk.requests r.2 = Splunk.requests sink ++ cs)
     /\ (forall before c after,
           cs = before ++ c :: after ->
           hec_answers sink base before ->
           hec_answer (Splunk.post sink (base + length before) c) = false ->
           r.1 = Raise AttributeError
           /\ Splunk.requests r.2 = Splunk.requests sink ++ before ++ [c])
     /\ (hec_answers sink base cs
         \/ exists before c after,
              cs = before ++ c :: after
              /\ hec_answers sink base before
              /\ hec_answer (Splunk.post sink (base + length before) c)
                 = false))
  /\ (length log_entries = 250%nat -> batch_size = 100 ->
      let c1 := take 100 log_entries in
      let c2 := take 100 (drop 100 log_entries) in
      let c3 := drop 200 log_entries in
      cs = [c1; c2; c3]
      /\ length c1 = 100%nat /\ length c2 = 100%nat /\ length c3 = 50%nat
      /\ (delivery_confirmed (Splunk.post sink base c1) = true ->
          delivery_confirmed (Splunk.post sink (S base) c2) = false ->
          hec_answer (Splunk.post sink (S base) c2) = true ->
          delivery_confirmed (Splunk.post sink (S (S base)) c3) = true ->
          r.1 = Ok (150, c1 ++ c3)
          /\ Splunk.requests r.2 = Splunk.requests sink ++ [c1; c2; c3])
      /\ (delivery_confirmed (Splunk.post sink base c1) = true ->
          hec_answer (Splunk.post sink (S base) c2) = false ->
          r.1 = Raise AttributeError
          /\ Splunk.requests r.2 = Splunk.requests sink ++ [c1; c2]))
  /\ (batch_size = 0 -> log_entries <> [] ->
      r = (Raise ZeroDivisionError, sink))
  /\ (batch_size < 0 -> r = (Ok (0, []), sink)).
Proof.
  intros n cs base r.
  assert (0 < batch_size -> hec_answers sink base cs ->
          r = (Ok (len (concat (confirmed_chunks sink base cs)),
                   concat (confirmed_chunks sink base cs)),
               Splunk.mkSink (Splunk.post sink) (Splunk.requests sink ++ cs)))
    as Hspec by (intros; by apply send_events_batch_spec).
  split; [|split; [|split]].
  - intros Hb.
    split; [apply chunks_concat; lia|].
    split; [apply chunks_lengths; lia|].
    split; [intros Hans; by rewrite Hspec|].
    split; [|apply hec_answers_or_first_foreign].
    intros before c after Hcs Hbefore Hc.
    by apply (send_events_batch_first_foreign sink log_entries batch_size
                before c after).
  - intros Hl H100 c1 c2 c3.
    assert (0 < batch_size) as Hb by lia.
    assert (cs = [c1; c2; c3]) as Hcs.
    { subst cs n c1 c2 c3. rewrite H100. by apply chunks_250_100. }
    split; [done|].
    split; [subst c1; rewrite length_take; lia|].
    split; [subst c2; rewrite length_take, length_drop; lia|].
    split; [subst c3; rewrite length_drop; lia|].
    split.
    + intros H1 H2 Hh2 H3.
      rewrite Hspec; [|done|].
      * rewrite Hcs. simpl. rewrite H1, H2, H3. simpl.
        rewrite app_nil_r. unfold len.
        subst c1 c3. rewrite length_app, length_take, length_drop, Hl. done.
      * rewrite Hcs. cbn [hec_answers].
        split; [by apply delivery_confirmed_hec|].
        split; [done|]. split; [by apply delivery_confirmed_hec|done].
    + intros H1 Hh2.
      apply (send_events_batch_first_foreign sink log_entries batch_size
               [c1] c2 [c3]); [done|done| |].
      * cbn [hec_answers]. split; [by apply delivery_confirmed_hec|done].
      * simpl. rewrite Nat.add_1_r. exact Hh2.
  - intros -> Hne. subst r. unfold Splunk.send_events_batch.
    by rewrite bool_decide_eq_false_2 by done.
  - intros Hb. subst r. unfold Splunk.send_events_batch.
    destruct (bool_decide (log_entries = [])); [done|].
    rewrite bool_decide_eq_false_2 by lia.
    unfold py_range.
    assert ((0 <? batch_size) = false) as -> by (apply Z.ltb_ge; lia).
    done.
Qed.

Lemma C1_send_events_batch_witness :
  (Splunk.send_events_batch sink_second_is_list events_250 100).1
  = Raise AttributeError
  /\ Splunk.requests
       (Splunk.send_events_batch sink_second_is_list events_250 100).2
     = [take 100 events_250; take 100 (drop 100 events_250)].
Proof.
  destruct (C1_send_events_batch_outcomes sink_second_is_list events_250 100)
    as (_ & H250 & _).
  destruct H250 as (_ & _ & _ & _ & _ & Habort); [reflexivity|reflexivity|].
  apply Habort; reflexivity.
Defined.

(** ** C5: what counts as a confirmed delivery *)

Lemma delivery_confirmed_iff answer :
  delivery_confirmed answer = true
  <-> exists status kv,
        answer = Response status (Some (JObj kv))
        /\ ~ (400 <= status < 600)
        /\ assoc_last "text" kv = Some (JStr "Success").
Proof.
  split.
  - destruct answer as [|status [[| | | | |kv]|]]; simpl; try discriminate.
    intros [Hs Ht]%andb_true_iff.
    exists status, kv. split; [done|]. split; [lia|].
    destruct (assoc_last "text" kv) as [[| | |text| |]|]; try discriminate.
    apply bool_decide_eq_true in Ht. by subst.
  - intros (status & kv & -> & Hs & Ht). simpl. rewrite Ht.
    apply andb_true_iff. split; [|by apply bool_decide_eq_true].
    apply negb_true_iff, andb_false_iff. lia.
Qed.

Lemma chunks_single {A} (n : nat) (l : list A) :
  l <> [] -> (length l <= n)%nat -> chunks n l = [l].
Proof.
  intros Hl Hn. rewrite chunks_cons; [|destruct l; [done|simpl in *; lia]|done].
  by rewrite take_ge, drop_ge by lia.
Qed.

(** C5: what [send_events] does on every input. Nothing is posted for an
    empty chunk, which counts as sent. A chunk that is not empty is posted
    once, and the send succeeds exactly when the transport response is
    successful and the JSON body of the response is a mapping whose [text]
    field equals ["Success"]: a 2xx status alone confirms nothing. When
    the response has a 2xx status but its body is not JSON, or is a
    mapping whose [text] is not ["Success"], [send_events] raises
    [SplunkHECError], and a batch made of that chunk accepts no event. But
    when the body is JSON of another shape (a list, a string, a number,
    [null]), which has no [text] field either, [send_events] raises
    [AttributeError], not [SplunkHECError], and the batch send raises with
    it instead of leaving the chunk out. *)
Theorem C5_send_events_needs_success_text sink log_entries :
  let answer :=
    Splunk.post sink (length (Splunk.requests sink)) log_entries in
  let r := Splunk.send_events sink log_entries in
  (log_entries = [] -> r = (Ok true, sink))
  /\ (log_entries <> [] ->
      Splunk.requests r.2 = Splunk.requests sink ++ [log_entries]
      /\ (r.1 = Ok true
          <-> exists status kv,
                answer = Response status (Some (JObj kv))
                /\ ~ (400 <= status < 600)
                /\ assoc_last "text" kv = Some (JStr "Success"))
      /\ (forall b, r.1 = Ok b -> b = true /\ delivery_confirmed answer = true)
      /\ (forall status body,
            answer = Response status body -> 200 <= status < 300 ->
            match body with
            | None => r.1 = Raise SplunkHECError
            | Some (JObj kv) =>
                assoc_last "text" kv <> Some (JStr "Success") ->
                r.1 = Raise SplunkHECError
            | Some _ => r.1 = Raise AttributeError
            end)
      /\ (answer = TransportError
          \/ (exists status body,
                answer = Response status body /\ 400 <= status < 600) ->
          r.1 = Raise SplunkHECError)
      /\ (forall batch_size,
            len log_entries <= batch_size ->
            (r.1 = Ok true ->
             (Splunk.send_events_batch sink log_entries batch_size).1
             = Ok (len log_entries, log_entries))
            /\ (r.1 = Raise SplunkHECError ->
                (Splunk.send_events_batch sink log_entries batch_size).1
                = Ok (0, []))
            /\ (r.1 = Raise AttributeError ->
                (Splunk.send_events_batch sink log_entries batch_size).1
                = Raise AttributeError))).
Proof.
  intros answer r. split.
  { intros ->. done. }
  intros Hne.
  pose proof (send_events_result sink log_entries Hne) as Hr.
  cbv zeta in Hr. fold answer in Hr. fold r in Hr.
  assert (r.1 = (if delivery_confirmed answer then Ok true
                 else if hec_answer answer then Raise SplunkHECError
                 else Raise AttributeError)) as Hr1 by (by rewrite Hr).
  split; [by rewrite Hr|]. split; [|split; [|split; [|split]]].
  - rewrite Hr1, <- delivery_confirmed_iff.
    destruct (delivery_confirmed answer); [done|].
    split; [|done]. by destruct (hec_answer answer).
  - intros b. rewrite Hr1. destruct (delivery_confirmed answer).
    + by intros [= <-].
    + by destruct (hec_answer answer).
  - intros status body Ha Hs. rewrite Hr1, Ha.
    assert ((400 <=? status) && (status <? 600) = false) as Hst.
    { apply andb_false_iff. lia. }
    destruct body as [[| | | | |kv]|]; simpl; rewrite ?Hst; simpl; try done.
    intros Ht.
    destruct (assoc_last "text" kv) as [[| | |text| |]|]; try done.
    rewrite bool_decide_eq_false_2; [done|]. intros ->. done.
  - intros Ha. rewrite Hr1.
    destruct Ha as [->|(status & body & -> & Hs)]; [done|].
    assert ((400 <=? status) && (status <? 600) = true) as Hst.
    { apply andb_true_iff. lia. }
    destruct body as [[| | | | |kv]|]; simpl; rewrite ?Hst; done.
  - intros batch_size Hlen.
    assert (0 < batch_size) as Hb.
    { unfold len in Hlen. destruct log_entries; [done|]. simpl in Hlen. lia. }
    assert (chunks (Z.to_nat batch_size) log_entries = [log_entries]) as Hcs.
    { apply chunks_single; [done|]. unfold len in Hlen. lia. }
    rewrite Hr1.
    destruct (delivery_confirmed answer) eqn:Hc;
      [|destruct (hec_answer answer) eqn:Hh].
    + split; [|done]. intros _.
      rewrite send_events_batch_spec; [|done|]; rewrite Hcs; simpl;
        fold answer.
      * rewrite Hc. simpl. by rewrite app_nil_r.
      * by rewrite (delivery_confirmed_hec _ Hc).
    + split; [done|]. split; [|done]. intros _.
      rewrite send_events_batch_spec; [|done|]; rewrite Hcs; simpl;
        fold answer.
      * by rewrite Hc.
      * by rewrite Hh.
    + split; [done|]. split; [done|]. intros _.
      apply (send_events_batch_first_foreign sink log_entries batch_size
               [] log_entries []); [done|done|done|].
      simpl. rewrite Nat.add_0_r. exact Hh.
Qed.

Lemma C5_send_events_witness :
  (Splunk.send_events
     (Splunk.mkSink (fun _ _ => Response 200 (Some (JArr []))) []) [ev 0]).1
  = Raise AttributeError
  /\ (Splunk.send_events
        (Splunk.mkSink
           (fun _ _ => Response 200
              (Some (JObj [("text", JStr "Invalid data format");
                           ("code", JNum 6)])))
           [])
        [ev 0]).1
     = Raise SplunkHECError.
Proof.
  split.
  - destruct (C5_send_events_needs_success_text
                (Splunk.mkSink (fun _ _ => Response 200 (Some (JArr []))) [])
                [ev 0]) as [_ H].
    destruct H as (_ & _ & _ & H & _); [done|].
    apply (H 200 (Some (JArr [])) eq_refl). lia.
  - destruct (C5_send_events_needs_success_text
                (Splunk.mkSink
                   (fun _ _ => Response 200
                      (Some (JObj [("text", JStr "Invalid data format");
                                   ("code", JNum 6)])))
                   [])
                [ev 0]) as [_ H].
    destruct H as (_ & _ & _ & H & _); [done|].
    apply (H 200 _ eq_refl); [lia|]. vm_compute. discriminate.
Defined.

(** ** Pagination *)

Lemma pages_of_snoc_ok tr c p :
  Crusoe.call_result c = Ok p -> pages_of (tr ++ [c]) = pages_of tr ++ [p].
Proof. intros H. unfold pages_of. rewrite omap_app. simpl. by rewrite H. Qed.

Lemma pages_of_snoc_raise tr c e :
  Crusoe.call_result c = Raise e -> pages_of (tr ++ [c]) = pages_of tr.
Proof.
  intros H. unfold pages_of. rewrite omap_app. simpl. rewrite H.
  by rewrite app_nil_r.
Qed.

Lemma len_app {A} (l1 l2 : list A) : len (l1 ++ l2) = len l1 + len l2.
Proof. unfold len. rewrite length_app. lia. Qed.

Lemma well_addressed_snoc page_size tr c :
  well_addressed page_size tr ->
  Crusoe.call_limit c = page_size ->
  Crusoe.call_offset c = len (concat (pages_of tr)) ->
  well_addressed page_size (tr ++ [c]).
Proof.
  intros Hw Hl Ho k c' Hk.
  destruct (decide (k < length tr)%nat) as [Hlt|Hge].
  - rewrite lookup_app_l in Hk by done.
    rewrite take_app_le by lia. by apply Hw.
  - rewrite lookup_app_r in Hk by lia.
    destruct (k - length tr)%nat as [|j] eqn:Hj; simpl in Hk; [|done].
    injection Hk as <-.
    assert (k = length tr) as -> by lia.
    rewrite take_app_length. done.
Qed.

Section PaginationFacts.

Context {S : Type}.
Variable fetch : S -> Z -> Z -> result (list Event) * S.

Lemma paginate_loop_post fuel page_size max_pages :
  forall s all_logs offset page_count calls r s' tr,
    pagination_inv page_size max_pages all_logs offset page_count calls ->
    Crusoe.paginate_loop fetch fuel s page_size max_pages
      all_logs offset page_count calls = Some (r, s', tr) ->
    pagination_post page_size max_pages tr r.
Proof.
  induction fuel as [|fuel IH];
    intros s all_logs offset page_count calls r s' tr Hinv Hrun; [done|].
  destruct Hinv as (Hfull & Hall & Hoff & Hcount & Hwa & Hcap).
  cbn [Crusoe.paginate_loop] in Hrun.
  destruct (Crusoe.cap_reached max_pages page_count) eqn:Hc.
  { (* the cap is reached *)
    injection Hrun as <- <- <-.
    split; [done|]. split; [by apply Forall_take|]. split; [done|].
    unfold stop_and_result. destruct (last calls) as [c|] eqn:Hlast.
    - apply last_Some in Hlast as [front ->].
      apply Forall_app in Hfull as [_ Hc']. rewrite Forall_singleton in Hc'.
      destruct Hc' as (p & Hp & _). rewrite Hp. split; [by rewrite Hall|].
      right. right. by rewrite <- Hcount.
    - apply last_None in Hlast. subst calls. simpl in *.
      subst. done. }
  destruct (fetch s page_size offset) as [r0 s1] eqn:Hfetch.
  set (c := Crusoe.mkCall page_size offset r0) in *.
  assert (well_addressed page_size (calls ++ [c])) as Hwa1.
  { apply well_addressed_snoc; [done..|]. simpl. by rewrite Hoff, Hall. }
  assert (forall k, (k < length (calls ++ [c]))%nat ->
                    Crusoe.cap_reached max_pages (Z.of_nat k) = false) as Hcap1.
  { intros k Hk. rewrite length_app in Hk. simpl in Hk.
    destruct (decide (k < length calls)%nat); [by apply Hcap|].
    assert (k = length calls) as -> by lia. by rewrite <- Hcount. }
  assert (take (length (calls ++ [c]) - 1) (calls ++ [c]) = calls) as Htake.
  { rewrite length_app. simpl.
    replace (length calls + 1 - 1)%nat with (length calls) by lia.
    apply take_app_length. }
  assert (last (calls ++ [c]) = Some c) as Hlast by apply last_snoc.
  destruct r0 as [logs|e].
  - destruct (bool_decide (logs = [])) eqn:Hempty.
    { apply bool_decide_eq_true in Hempty. subst logs.
      injection Hrun as <- <- <-.
      split; [done|]. split; [by rewrite Htake|]. split; [done|].
      unfold stop_and_result. rewrite Hlast. simpl.
      rewrite (pages_of_snoc_ok _ c []) by done.
      rewrite concat_app. simpl. rewrite app_nil_r. split; [by rewrite Hall|].
      by left. }
    apply bool_decide_eq_false in Hempty.
    destruct (bool_decide (len logs < page_size)) eqn:Hshort.
    { apply bool_decide_eq_true in Hshort.
      injection Hrun as <- <- <-.
      split; [done|]. split; [by rewrite Htake|]. split; [done|].
      unfold stop_and_result. rewrite Hlast. simpl.
      rewrite (pages_of_snoc_ok _ c logs) by done.
      rewrite concat_app. simpl. rewrite app_nil_r. split; [by rewrite Hall|].
      right. by left. }
    apply bool_decide_eq_false in Hshort.
    eapply IH; [|apply Hrun].
    split; [|split; [|split; [|split; [|split]]]]; try done.
    + apply Forall_app. split; [done|]. apply Forall_singleton.
      exists logs. split; [done|]. split; [done|]. lia.
    + rewrite (pages_of_snoc_ok _ c logs) by done.
      rewrite concat_app. simpl. rewrite app_nil_r. by rewrite Hall.
    + rewrite len_app. lia.
    + rewrite length_app. simpl. lia.
  - assert (pages_of (calls ++ [c]) = pages_of calls) as Hpages
      by (by apply (pages_of_snoc_raise _ c e)).
    destruct (is_CrusoeAPIError e) eqn:Hapi;
      [|destruct (is_Exception e) eqn:Hexc];
      injection Hrun as <- <- <-;
      (split; [done|]; split; [by rewrite Htake|]; split; [done|]);
      unfold stop_and_result; rewrite Hlast; simpl; rewrite Hapi; try done;
      rewrite Hexc; try done.
    by rewrite Hpages, Hall.
Qed.





End PaginationFacts.

Section PaginationClaim.

Context {S : Type}.
Variable fetch : S -> Z -> Z -> result (list Event) * S.




End PaginationClaim.


(** ** C7: a secret that cannot be decoded *)

Section SignerFacts.

Variable url_path : string -> string.
Variable urlencode : list (string * pyval) -> string.
Variable utc_timestamp : Z -> string.




End SignerFacts.

Section SignerClaim.

Variable url_path : string -> string.
Variable urlencode : list (string * pyval) -> string.
Variable utc_timestamp : Z -> string.



End SignerClaim.



(** ** C2: the windows of the daemon *)

Lemma last_successful_end_snoc log c :
  last_successful_end (log ++ [c])
  = match Main.cycle_result c with
    | Ok _ => Some (Main.cycle_end c)
    | Raise _ => last_successful_end log
    end.
Proof.
  unfold last_successful_end. rewrite omap_app. simpl.
  destruct (Main.cycle_result c); simpl.
  - apply last_snoc.
  - by rewrite app_nil_r.
Qed.

Lemma windows_follow_snoc lookback log c :
  windows_follow lookback log ->
  Main.cycle_start c
  = match last_successful_end log with
    | Some e => e - Main.timedelta 30
    | None => Main.cycle_end c - Main.timedelta lookback
    end ->
  windows_follow lookback (log ++ [c]).
Proof.
  intros Hw Hc k c' Hk.
  destruct (decide (k < length log)%nat) as [Hlt|Hge].
  - rewrite lookup_app_l in Hk by done.
    rewrite take_app_le by lia. by apply Hw.
  - rewrite lookup_app_r in Hk by lia.
    destruct (k - length log)%nat as [|j] eqn:Hj; simpl in Hk; [|done].
    injection Hk as <-.
    assert (k = length log) as -> by lia.
    by rewrite take_app_length.
Qed.

Section DaemonFacts.

Context {St : Type}.
Variable now : St -> Z * St.
Variable forward : St -> Z -> Z -> result Z * St.
Variable lookback : Z.

Lemma daemon_cycle_inv d :
  daemon_inv lookback d ->
  daemon_inv lookback (Main.daemon_cycle now forward lookback d).
Proof.
  intros [Hl Hw]. unfold Main.daemon_cycle.
  destruct (now (Main.env_state d)) as [end_time st1].
  destruct (forward st1 _ end_time) as [r st2] eqn:Hf.
  assert (windows_follow lookback
            (Main.cycles_run d
             ++ [Main.mkCycle
                   (Main.window_start lookback (Main.last_run_time d) end_time)
                   end_time r])) as Hw'.
  { apply windows_follow_snoc; [done|]. simpl. rewrite <- Hl.
    unfold Main.window_start. by destruct (Main.last_run_time d). }
  destruct r as [sent|e]; [|destruct (is_Exception e)];
    (split; [|done]); simpl; by rewrite last_successful_end_snoc.
Qed.

Lemma daemon_loop_inv n d :
  daemon_inv lookback d ->
  daemon_inv lookback (Main.daemon_loop now forward lookback n d).
Proof.
  revert d. induction n as [|n IH]; intros d Hd; [done|].
  simpl. pose proof (daemon_cycle_inv d Hd).
  destruct (Main.interrupted _); [done|]. by apply IH.
Qed.

End DaemonFacts.

Section DaemonClaim.

Context {St : Type}.
Variable now : St -> Z * St.
Variable forward : St -> Z -> Z -> result Z * St.
Variable lookback : Z.

Lemma daemon_cycle_log d :
  exists c, Main.cycles_run (Main.daemon_cycle now forward lookback d)
            = Main.cycles_run d ++ [c]
            /\ Main.cycle_end c = (now (Main.env_state d)).1
            /\ Main.cycle_start c
               = Main.window_start lookback (Main.last_run_time d)
                   (now (Main.env_state d)).1.
Proof.
  unfold Main.daemon_cycle.
  destruct (now (Main.env_state d)) as [end_time st1].
  destruct (forward st1 _ end_time) as [[sent|e] st2];
    [|destruct (is_Exception e)]; by eexists.
Qed.

Lemma daemon_loop_log n d :
  exists more, Main.cycles_run (Main.daemon_loop now forward lookback n d)
               = Main.cycles_run d ++ more.
Proof.
  revert d. induction n as [|n IH]; intros d.
  - exists []. by rewrite app_nil_r.
  - simpl. destruct (daemon_cycle_log d) as (c & Hc & _).
    destruct (Main.interrupted _).
    + rewrite Hc. by eexists.
    + destruct (IH (Main.daemon_cycle now forward lookback d)) as [more ->].
      rewrite Hc, <- app_assoc. by eexists.
Qed.

(** The windows as the loop computes them: the first cycle's window is
    [[now - lookback, now)], and so is the window of every cycle run while
    [last_run_time] is still [None]; every cycle after a completed one
    starts 30 seconds before [last_successful_end], the end of the last
    cycle that completed without raising; a cycle that raises leaves
    [last_successful_end] as it was. *)
Lemma daemon_windows_by_last_success n st :
  let d := Main.daemon now forward lookback n st in
  windows_follow lookback (Main.cycles_run d)
  /\ Main.last_run_time d = last_successful_end (Main.cycles_run d)
  /\ (forall c, Main.cycles_run d !! 0%nat = Some c ->
        Main.cycle_end c = (now st).1
        /\ Main.cycle_start c = (now st).1 - Main.timedelta lookback)
  /\ (forall k c e,
        Main.cycles_run d !! k = Some c ->
        last_successful_end (take k (Main.cycles_run d)) = Some e ->
        Main.cycle_start c = e - Main.timedelta 30
        /\ Main.cycle_start c <= e - Main.timedelta 30)
  /\ (forall k c,
        Main.cycles_run d !! k = Some c ->
        last_successful_end (take k (Main.cycles_run d)) = None ->
        Main.cycle_start c = Main.cycle_end c - Main.timedelta lookback)
  /\ (forall log c,
        last_successful_end (log ++ [c])
        = match Main.cycle_result c with
          | Ok _ => Some (Main.cycle_end c)
          | Raise _ => last_successful_end log
          end).
Proof.
  intros d.
  assert (daemon_inv lookback d) as [Hl Hw].
  { apply daemon_loop_inv. split; [done|]. intros k c Hk. done. }
  split; [done|]. split; [done|]. split; [|split; [|split]].
  - intros c Hc. subst d. unfold Main.daemon in Hc. destruct n as [|n]; [done|].
    simpl in Hc.
    destruct (daemon_cycle_log (Main.mkDaemon None st [] false))
      as (c0 & Hc0 & Hend & Hstart).
    simpl in Hc0, Hend, Hstart.
    assert (c = c0) as ->.
    { destruct (Main.interrupted _).
      - rewrite Hc0 in Hc. by injection Hc.
      - destruct (daemon_loop_log n
                    (Main.daemon_cycle now forward lookback
                       (Main.mkDaemon None st [] false))) as [more Hm].
        rewrite Hm, Hc0 in Hc. by injection Hc. }
    by rewrite Hend, Hstart.
  - intros k c e Hk He. rewrite (Hw k c Hk), He. lia.
  - intros k c Hk He. by rewrite (Hw k c Hk), He.
  - apply last_successful_end_snoc.
Qed.

Lemma last_successful_end_Some log e :
  last_successful_end log = Some e ->
  exists j c sent, log !! j = Some c /\ Main.cycle_result c = Ok sent
                   /\ Main.cycle_end c = e.
Proof.
  unfold last_successful_end. intros Hlast.
  apply last_Some in Hlast as [front Hfront].
  assert (e ∈ omap (fun c => match Main.cycle_result c with
                             | Ok _ => Some (Main.cycle_end c)
                             | Raise _ => None
                             end) log) as Hin.
  { rewrite Hfront. apply elem_of_app. right. by apply list_elem_of_singleton. }
  apply list_elem_of_omap in Hin as (c & Hc & Hf).
  apply list_elem_of_lookup in Hc as [j Hj].
  destruct (Main.cycle_result c) as [sent|] eqn:Hr; [|done].
  injection Hf as <-. by exists j, c, sent.
Qed.

(** C2: a failed cycle is retried over the same period only when a cycle
    completed before it. When the first cycle raises, [last_run_time] is
    still [None] and the second cycle starts at its own
    [now - lookback], not at the start of the failed window: when the
    clock has moved on, the second window starts later than the first,
    and with a clock that does not go back and a lookback of at least the
    30 seconds of overlap no later cycle starts before the second, so the
    instants of the failed window before the second window's start are in
    no later window. A cycle that raises after a completed one, in
    contrast, is followed by a cycle with the same window start. *)
Theorem C2_failed_first_cycle_is_not_retried n st c1 c2 e :
  let log := Main.cycles_run (Main.daemon now forward lookback n st) in
  log !! 0%nat = Some c1 -> log !! 1%nat = Some c2 ->
  Main.cycle_result c1 = Raise e ->
  30 <= lookback ->
  (forall j k cj ck, (j <= k)%nat -> log !! j = Some cj -> log !! k = Some ck ->
     Main.cycle_end cj <= Main.cycle_end ck) ->
  Main.cycle_start c1 = Main.cycle_end c1 - Main.timedelta lookback
  /\ Main.cycle_start c2 = Main.cycle_end c2 - Main.timedelta lookback
  /\ (Main.cycle_end c1 < Main.cycle_end c2 ->
      Main.cycle_start c1 < Main.cycle_start c2)
  /\ (forall k ck, (1 <= k)%nat -> log !! k = Some ck ->
        Main.cycle_start c2 <= Main.cycle_start ck)
  /\ (forall k ck t, (1 <= k)%nat -> log !! k = Some ck ->
        Main.cycle_start c1 <= t < Main.cycle_start c2 ->
        ~ (Main.cycle_start ck <= t < Main.cycle_end ck))
  /\ (forall k ck ck' ck'' sent e',
        log !! k = Some ck -> log !! (Datatypes.S k) = Some ck' ->
        log !! (Datatypes.S (Datatypes.S k)) = Some ck'' ->
        Main.cycle_result ck = Ok sent -> Main.cycle_result ck' = Raise e' ->
        Main.cycle_start ck' = Main.cycle_end ck - Main.timedelta 30
        /\ Main.cycle_start ck'' = Main.cycle_start ck').
Proof.
  intros log H1 H2 Hr1 Hlook Hmono.
  assert (windows_follow lookback log) as Hw.
  { assert (daemon_inv lookback (Main.daemon now forward lookback n st))
      as [_ Hw]; [|done].
    apply daemon_loop_inv. split; [done|]. intros k c Hk. done. }
  assert (Main.cycle_start c1 = Main.cycle_end c1 - Main.timedelta lookback)
    as Hs1 by (by rewrite (Hw 0%nat c1 H1)).
  assert (Main.cycle_start c2 = Main.cycle_end c2 - Main.timedelta lookback)
    as Hs2.
  { rewrite (Hw 1%nat c2 H2), (take_S_r log 0 c1 H1). simpl.
    unfold last_successful_end. simpl. by rewrite Hr1. }
  assert (forall k ck, (1 <= k)%nat -> log !! k = Some ck ->
            Main.cycle_start c2 <= Main.cycle_start ck) as Hlater.
  { intros k ck Hk Hck. rewrite (Hw k ck Hck), Hs2.
    pose proof (Hmono 1%nat k c2 ck Hk H2 Hck) as Hend.
    destruct (last_successful_end (take k log)) as [e0|] eqn:Hlast; [|lia].
    apply last_successful_end_Some in Hlast as (j & cj & sent & Hj & Hrj & <-).
    assert (j < k)%nat as Hjk.
    { pose proof (lookup_lt_Some _ _ _ Hj) as Hl.
      rewrite length_take in Hl. lia. }
    rewrite lookup_take_lt in Hj by done.
    assert (1 <= j)%nat as Hj1.
    { destruct j as [|j]; [|lia]. rewrite H1 in Hj. injection Hj as <-.
      rewrite Hr1 in Hrj. discriminate Hrj. }
    pose proof (Hmono 1%nat j c2 cj Hj1 H2 Hj) as Hendj.
    unfold Main.timedelta. lia. }
  split; [done|]. split; [done|]. split; [lia|]. split; [done|]. split.
  - intros k ck t Hk Hck Ht [Hin _].
    pose proof (Hlater k ck Hk Hck). lia.
  - intros k ck ck' ck'' sent e' Hk Hk' Hk'' Hrk Hrk'.
    assert (last_successful_end (take (Datatypes.S k) log)
            = Some (Main.cycle_end ck)) as Hlast.
    { rewrite (take_S_r log k ck Hk), last_successful_end_snoc. by rewrite Hrk. }
    split.
    + by rewrite (Hw _ ck' Hk'), Hlast.
    + rewrite (Hw _ ck'' Hk''), (Hw _ ck' Hk').
      rewrite (take_S_r log (Datatypes.S k) ck' Hk'), last_successful_end_snoc.
      by rewrite Hrk', Hlast.
Qed.

End DaemonClaim.

Lemma C2_failed_first_cycle_witness :
  Main.cycle_start
    (Main.mkCycle (Main.timedelta 400) (Main.timedelta 1000)
       (Raise CrusoeAPIError))
  < Main.cycle_start
      (Main.mkCycle (Main.timedelta 700) (Main.timedelta 1300) (Ok 0))
  /\ ~ (Main.cycle_start
          (Main.mkCycle (Main.timedelta 1270) (Main.timedelta 1600) (Ok 0))
        <= Main.timedelta 500
        < Main.cycle_end
            (Main.mkCycle (Main.timedelta 1270) (Main.timedelta 1600) (Ok 0))).
Proof.
  destruct (C2_failed_first_cycle_is_not_retried
              now_every_300 forward_first_fails 600 3%nat 0%nat
              (Main.mkCycle (Main.timedelta 400) (Main.timedelta 1000)
                 (Raise CrusoeAPIError))
              (Main.mkCycle (Main.timedelta 700) (Main.timedelta 1300) (Ok 0))
              CrusoeAPIError)
    as (_ & _ & Hgap & _ & Hlost & _).
  - vm_compute. reflexivity.
  - vm_compute. reflexivity.
  - reflexivity.
  - lia.
  - intros j k cj ck Hjk Hj Hk.
    destruct j as [|[|[|j]]]; destruct k as [|[|[|k]]];
      vm_compute in Hj, Hk; try discriminate; try lia;
      injection Hj as <-; injection Hk as <-; vm_compute; discriminate.
  - split.
    + apply Hgap. vm_compute. reflexivity.
    + apply (Hlost 2%nat).
      * lia.
      * vm_compute. reflexivity.
      * vm_compute. split; [discriminate|reflexivity].
Defined.

(** ** C10, with the batch send that follows the filter *)

(** C10: [filter_duplicates] records nothing, so it does not suppress a
    repetition inside its own input: in every store where the fingerprint
    of an event is not recorded, an input holding two events with the same
    identity fields returns both, in place; the fingerprint is still not
    recorded afterwards; an event is left out only when its fingerprint
    was recorded before the call; and a batch send of what was returned
    posts both events to the collector. *)
Theorem C10_filter_keeps_repetition self w e1 e2 l1 l2 l3 :
  same_identity e1 e2 ->
  Dedup._generate_event_hash e1 ∉ dom (Dedup.seen_events self) ->
  exists o1 o2 o3 self' w',
    Dedup.filter_duplicates self w (l1 ++ e1 :: l2 ++ e2 :: l3)
      = (o1 ++ e1 :: o2 ++ e2 :: o3, self', w')
    /\ o1 `sublist_of` l1 /\ o2 `sublist_of` l2 /\ o3 `sublist_of` l3
    /\ (Dedup._generate_event_hash e1 ∉ dom (Dedup.seen_events self'))
    /\ (forall e, e ∈ (l1 ++ e1 :: l2 ++ e2 :: l3) ->
                  e ∉ (o1 ++ e1 :: o2 ++ e2 :: o3) ->
                  Dedup._generate_event_hash e ∈ dom (Dedup.seen_events self))
    /\ (forall sink batch_size,
          0 < batch_size ->
          hec_answers sink (length (Splunk.requests sink))
            (chunks (Z.to_nat batch_size) (o1 ++ e1 :: o2 ++ e2 :: o3)) ->
          exists posted,
            Splunk.requests
              (Splunk.send_events_batch sink
                 (o1 ++ e1 :: o2 ++ e2 :: o3) batch_size).2
            = Splunk.requests sink ++ posted
            /\ concat posted = o1 ++ e1 :: o2 ++ e2 :: o3).
Proof.
  assert (forall out sink batch_size,
            0 < batch_size ->
            hec_answers sink (length (Splunk.requests sink))
              (chunks (Z.to_nat batch_size) out) ->
            exists posted,
              Splunk.requests (Splunk.send_events_batch sink out batch_size).2
              = Splunk.requests sink ++ posted
              /\ concat posted = out) as Hsend.
  { intros out sink batch_size Hb Hans.
    exists (chunks (Z.to_nat batch_size) out).
    rewrite send_events_batch_spec by done. split; [done|].
    apply chunks_concat. lia. }
  intros Hid H1.
  assert (Dedup._generate_event_hash e2 ∉ dom (Dedup.seen_events self)) as H2
    by (by rewrite <- (same_identity_hash e1 e2)).
  destruct (Dedup.enabled self) eqn:He.
  - exists (kept_from self w 0 l1),
      (kept_from self w (S (0 + length l1)) l2),
      (kept_from self w (S (S (0 + length l1) + length l2)) l3).
    eexists _, _.
    assert (kept_from self w 0 (l1 ++ e1 :: l2 ++ e2 :: l3)
            = kept_from self w 0 l1 ++ (e1
                :: kept_from self w (S (0 + length l1)) l2 ++ (e2
                :: kept_from self w (S (S (0 + length l1) + length l2)) l3)))
      as Hk.
    { rewrite kept_from_app, kept_from_cons_unrecorded by done.
      by rewrite kept_from_app, kept_from_cons_unrecorded by done. }
    split; [rewrite filter_duplicates_spec by done; by rewrite Hk|].
    do 3 (split; [apply kept_from_sublist|]).
    split.
    + simpl. intros Hin. apply H1. revert Hin.
      apply subseteq_dom, surviving_subseteq.
    + split; [|intros; by apply Hsend].
      intros e Hin Hout. rewrite <- Hk in Hout. by eapply kept_from_dropped.
  - exists l1, l2, l3, self, w.
    split; [unfold Dedup.filter_duplicates; by rewrite He|].
    do 3 (split; [done|]). split; [done|].
    split; [|intros; by apply Hsend].
    intros e Hin Hout. by destruct Hout.
Qed.

Lemma C10_filter_keeps_repetition_witness :
  (Dedup.filter_duplicates (Dedup.mkDedup 100 true ∅) world_1000
     ([] ++ ev_login :: [] ++ ev_login' :: [])).1.1
  = [ev_login; ev_login'].
Proof.
  destruct (C10_filter_keeps_repetition
              (Dedup.mkDedup 100 true ∅) world_1000 ev_login ev_login' [] [] [])
    as (o1 & o2 & o3 & self' & w' & Heq & Hs1 & Hs2 & Hs3 & _).
  - unfold same_identity, identity_fields. repeat constructor.
  - simpl. rewrite dom_empty. apply not_elem_of_empty.
  - rewrite Heq. simpl.
    apply sublist_nil_r in Hs1, Hs2, Hs3. by subst.
Defined.


(** * Further properties of the code *)

(** ** The deduplication store *)

(** A disabled store is a pass-through: no check finds a duplicate, the
    filter returns its input, marking, purging, loading and saving do
    nothing, and neither the clock nor the state file is touched. *)
Theorem disabled_store_is_pass_through
    (float_of_str : string -> option Z) (isoformat : Z -> string)
    self w events e :
  Dedup.enabled self = false ->
  Dedup.is_duplicate self w e = (false, self, w)
  /\ Dedup.filter_duplicates self w events = (events, self, w)
  /\ Dedup.mark_events_as_sent isoformat self w events = (self, w)
  /\ Dedup._cleanup_old_entries self w = (self, w)
  /\ Dedup._load_state float_of_str self w = Ok (self, w)
  /\ Dedup._save_state isoformat self w = w.
Proof.
  intros He.
  unfold Dedup.is_duplicate, Dedup.filter_duplicates, Dedup.mark_events_as_sent,
    Dedup._cleanup_old_entries, Dedup._load_state, Dedup._save_state.
  rewrite He. simpl. done.
Qed.

Lemma disabled_store_witness :
  Dedup.filter_duplicates store_disabled world_1000 [ev_login; ev_login']
  = ([ev_login; ev_login'], store_disabled, world_1000).
Proof.
  apply (disabled_store_is_pass_through (fun _ => None) (fun _ => "")
           store_disabled world_1000 [ev_login; ev_login'] ev_login eq_refl).
Defined.

(** [mark_events_as_sent] records the fingerprint of every event it is
    given, with the time of the call unless the fingerprint was recorded
    already, in which case the earlier time stays; it changes no other
    record and removes none. *)
Theorem mark_events_as_sent_records (isoformat : Z -> string) self w events :
  Dedup.enabled self = true ->
  let self' := (Dedup.mark_events_as_sent isoformat self w events).1 in
  (forall e, e ∈ events ->
     Dedup.seen_events self' !! Dedup._generate_event_hash e
     = Some (default (clock w (tick w))
               (Dedup.seen_events self !! Dedup._generate_event_hash e)))
  /\ (forall h, h ∉ map Dedup._generate_event_hash events ->
        Dedup.seen_events self' !! h = Dedup.seen_events self !! h)
  /\ Dedup.seen_events self ⊆ Dedup.seen_events self'.
Proof.
  intros He self'. split; [|split].
  - intros e Hin. by apply mark_records.
  - intros h Hh. subst self'. unfold Dedup.mark_events_as_sent. rewrite He. simpl.
    destruct (bool_decide (events = [])); [done|]. simpl.
    rewrite mark_loop_lookup. destruct (Dedup.seen_events self !! h); [done|].
    by rewrite decide_False.
  - apply map_subseteq_spec. intros h ts Hts.
    subst self'. unfold Dedup.mark_events_as_sent. rewrite He. simpl.
    destruct (bool_decide (events = [])); [done|]. simpl.
    rewrite mark_loop_lookup. by rewrite Hts.
Qed.

Lemma mark_events_as_sent_records_witness :
  Dedup.seen_events
    (Dedup.mark_events_as_sent (fun _ => "") store_recent world_1000
       [ev_login; ev 7]).1
  !! Dedup._generate_event_hash ev_login = Some 950.
Proof.
  rewrite (proj1 (mark_events_as_sent_records (fun _ => "") store_recent
                    world_1000 [ev_login; ev 7] eq_refl) ev_login).
  - vm_compute. reflexivity.
  - apply elem_of_cons. by left.
Defined.

(** Marking events that are all recorded already changes no record: the
    time of a record is the time of its first marking. *)
Theorem mark_events_as_sent_keeps_first_time (isoformat : Z -> string)
    self w events :
  Forall (fun e => Dedup._generate_event_hash e ∈ dom (Dedup.seen_events self))
         events ->
  Dedup.seen_events (Dedup.mark_events_as_sent isoformat self w events).1
  = Dedup.seen_events self.
Proof.
  intros Hall. unfold Dedup.mark_events_as_sent.
  destruct (negb (Dedup.enabled self) || bool_decide (events = [])); [done|].
  simpl. apply map_eq. intros h. rewrite mark_loop_lookup.
  destruct (Dedup.seen_events self !! h) eqn:Hh; [done|].
  rewrite decide_False; [done|].
  intros Hin. apply list_elem_of_fmap in Hin as (e & -> & He).
  rewrite Forall_forall in Hall. apply Hall in He.
  apply elem_of_dom in He as [ts Hts]. congruence.
Qed.

Lemma mark_events_as_sent_keeps_first_time_witness :
  Dedup.seen_events
    (Dedup.mark_events_as_sent (fun _ => "") store_recent world_1000
       [ev_login; ev_login']).1
  = Dedup.seen_events store_recent.
Proof.
  apply (mark_events_as_sent_keeps_first_time (fun _ => "") store_recent
           world_1000 [ev_login; ev_login']).
  repeat constructor; vm_compute; reflexivity.
Defined.

(** When the state file cannot be written, marking still records the
    events in memory and leaves the file as it was. *)
Theorem mark_events_as_sent_write_failure (isoformat : Z -> string)
    self w events :
  Dedup.enabled self = true -> disk_writable w = false ->
  let r := Dedup.mark_events_as_sent isoformat self w events in
  disk r.2 = disk w
  /\ forall e, e ∈ events ->
       Dedup._generate_event_hash e ∈ dom (Dedup.seen_events r.1).
Proof.
  intros He Hw r. split.
  - subst r. unfold Dedup.mark_events_as_sent. rewrite He. simpl.
    destruct (bool_decide (events = [])); [done|]. simpl.
    unfold Dedup._save_state. simpl. rewrite He. simpl. by rewrite Hw.
  - intros e Hin. apply elem_of_dom. eexists. by apply mark_records.
Qed.

Lemma mark_events_as_sent_write_failure_witness :
  disk (Dedup.mark_events_as_sent (fun _ => "") store_recent world_read_only
          [ev 7]).2 = None.
Proof.
  apply (mark_events_as_sent_write_failure (fun _ => "") store_recent
           world_read_only [ev 7] eq_refl eq_refl).
Defined.

(** *** The state file, written and read back *)

Lemma assoc_last_not_in {A} (k : string) (kv : list (string * A)) :
  k ∉ kv.*1 -> assoc_last k kv = None.
Proof.
  induction kv as [|[k' v] kv IH]; simpl; [done|].
  intros Hk. apply not_elem_of_cons in Hk as [Hne Hk].
  rewrite IH by done. by rewrite decide_False.
Qed.

Lemma filter_other_keys {A} (k : string) (kv : list (string * A)) :
  k ∉ kv.*1 -> filter (fun p : string * A => p.1 ≠ k) kv = kv.
Proof.
  induction kv as [|[k' v] kv IH]; simpl; [done|].
  intros Hk. apply not_elem_of_cons in Hk as [Hne Hk].
  rewrite filter_cons. simpl. rewrite decide_True by done. by rewrite IH.
Qed.

(** An object without repeated keys is read as it is written. *)
Lemma dict_items_NoDup (kv : list (string * json)) :
  NoDup kv.*1 -> Dedup.dict_items kv = kv.
Proof.
  induction kv as [|[k v] kv IH]; simpl; [done|].
  intros Hnd. apply NoDup_cons in Hnd as [Hk Hnd].
  rewrite IH by done. rewrite assoc_last_not_in by done. simpl.
  by rewrite filter_other_keys.
Qed.

Lemma convert_written_items (float_of_str : string -> option Z)
    (l : list (string * Z)) :
  mapM_result (Dedup.convert_item float_of_str)
    (map (fun kv : string * Z => (kv.1, JNum kv.2)) l) = Ok l.
Proof.
  induction l as [|[k v] l IH]; simpl; [done|]. by rewrite IH.
Qed.

(** The records written by [mark_events_as_sent] are the records that a
    store constructed afterwards on the same state file starts with, less
    those that have expired by then. *)
Theorem state_file_round_trip (float_of_str : string -> option Z)
    (isoformat : Z -> string) self w events :
  Dedup.enabled self = true -> events <> [] -> disk_writable w = true ->
  let r := Dedup.mark_events_as_sent isoformat self w events in
  Dedup.init float_of_str (Dedup.tracking_window_seconds self) true r.2
  = Ok (Dedup.set_seen r.1 (surviving r.1 r.2 1), advance r.2 1).
Proof.
  intros He Hne Hw r.
  pose proof (mark_persists isoformat self w events He Hne Hw) as Hdisk.
  cbv zeta in Hdisk. fold r in Hdisk.
  assert (r.1 = Dedup.mkDedup (Dedup.tracking_window_seconds self) true
                  (Dedup.seen_events r.1)) as Hr1.
  { subst r. unfold Dedup.mark_events_as_sent. rewrite He. simpl.
    rewrite bool_decide_eq_false_2 by done. simpl.
    unfold Dedup.set_seen. simpl. by rewrite He. }
  unfold Dedup.init, Dedup._load_state. simpl. rewrite Hdisk. simpl.
  rewrite dict_items_NoDup.
  2:{ rewrite <- list_fmap_compose.
      apply (NoDup_fst_map_to_list (Dedup.seen_events r.1)). }
  rewrite convert_written_items. simpl.
  rewrite list_to_map_to_list.
  rewrite cleanup_enabled by done. simpl.
  rewrite Hr1 at 3 4. done.
Qed.

Lemma state_file_round_trip_witness :
  Dedup.init (fun _ => None) 100 true
    (Dedup.mark_events_as_sent (fun _ => "") store_recent world_1000 [ev 7]).2
  = Ok (Dedup.set_seen
          (Dedup.mark_events_as_sent (fun _ => "") store_recent world_1000 [ev 7]).1
          (surviving
             (Dedup.mark_events_as_sent (fun _ => "") store_recent world_1000 [ev 7]).1
             (Dedup.mark_events_as_sent (fun _ => "") store_recent world_1000 [ev 7]).2
             1),
        advance
          (Dedup.mark_events_as_sent (fun _ => "") store_recent world_1000 [ev 7]).2
          1).
Proof.
  apply (state_file_round_trip (fun _ => None) (fun _ => "") store_recent
           world_1000 [ev 7] eq_refl).
  - done.
  - done.
Defined.

(** After [clear_state], whether the store is enabled or not, no event is
    a duplicate; the state file is deleted when the deletion succeeds, and
    a store constructed afterwards then starts empty; when the deletion
    fails the file stays as it was and nothing else changes, so a store
    constructed afterwards still loads what the file holds. *)
Theorem clear_state_forgets (float_of_str : string -> option Z) self w e :
  let r := Dedup.clear_state self w in
  Dedup.seen_events r.1 = ∅
  /\ (Dedup.is_duplicate r.1 r.2 e).1.1 = false
  /\ disk r.2 = (if disk_writable w then None else disk w)
  /\ (disk_writable w = true \/ disk w = None ->
      Dedup.init float_of_str (Dedup.tracking_window_seconds self)
        (Dedup.enabled self) r.2
      = Ok (r.1, r.2))
  /\ (disk_writable w = false -> r.2 = w).
Proof.
  intros r.
  assert (disk r.2 = (if disk_writable w then None else disk w)) as Hd.
  { subst r. unfold Dedup.clear_state. simpl.
    destruct (bool_decide (is_Some (disk w))) eqn:Hs.
    - by destruct (disk_writable w).
    - apply bool_decide_eq_false in Hs. apply eq_None_not_Some in Hs.
      rewrite Hs. by destruct (disk_writable w). }
  split; [done|]. split; [|split; [done|split]].
  - destruct (Dedup.enabled self) eqn:He.
    + rewrite is_duplicate_enabled by done. simpl.
      apply bool_decide_eq_false. intros Hin.
      apply (subseteq_dom _ _ (surviving_subseteq r.1 r.2 1)) in Hin.
      simpl in Hin. rewrite dom_empty in Hin. by apply elem_of_empty in Hin.
    + unfold Dedup.is_duplicate. simpl. by rewrite He.
  - intros Hw. assert (disk r.2 = None) as Hnone.
    { rewrite Hd. destruct Hw as [->| ->]; [done|].
      by destruct (disk_writable w). }
    unfold Dedup.init, Dedup._load_state. rewrite Hnone. simpl.
    by rewrite orb_true_r.
  - intros Hw. subst r. unfold Dedup.clear_state. simpl. rewrite Hw.
    by destruct (bool_decide (is_Some (disk w))).
Qed.

Lemma clear_state_forgets_witness :
  Dedup.seen_events (Dedup.clear_state store_recent world_stuck_file).1 = ∅
  /\ (Dedup.clear_state store_recent world_stuck_file).2 = world_stuck_file.
Proof.
  destruct (clear_state_forgets (fun _ => None) store_recent world_stuck_file
              ev_login) as (H1 & _ & _ & _ & H5).
  split; [exact H1|]. apply H5. reflexivity.
Defined.

(** *** Statistics *)

Lemma py_min_spec l m :
  Dedup.py_min l = Some m -> m ∈ l /\ forall x, x ∈ l -> m <= x.
Proof.
  destruct l as [|a l]; [done|]. simpl. intros [= <-].
  induction l as [|b l IH]; simpl.
  - split; [by apply elem_of_cons; left|].
    intros x Hx. apply list_elem_of_singleton in Hx. lia.
  - destruct IH as [Hin Hle]. split.
    + destruct (Z.min_spec b (foldr Z.min a l)) as [[_ ->]|[_ ->]].
      * apply elem_of_cons. right. by apply elem_of_cons; left.
      * apply elem_of_cons in Hin as [->|Hin].
        -- by apply elem_of_cons; left.
        -- apply elem_of_cons. right. by apply elem_of_cons; right.
    + intros x Hx. apply elem_of_cons in Hx as [->|Hx].
      * specialize (Hle a ltac:(by apply elem_of_cons; left)). lia.
      * apply elem_of_cons in Hx as [->|Hx]; [lia|].
        specialize (Hle x ltac:(by apply elem_of_cons; right)). lia.
Qed.

Lemma py_max_spec l m :
  Dedup.py_max l = Some m -> m ∈ l /\ forall x, x ∈ l -> x <= m.
Proof.
  destruct l as [|a l]; [done|]. simpl. intros [= <-].
  induction l as [|b l IH]; simpl.
  - split; [by apply elem_of_cons; left|].
    intros x Hx. apply list_elem_of_singleton in Hx. lia.
  - destruct IH as [Hin Hle]. split.
    + destruct (Z.max_spec b (foldr Z.max a l)) as [[_ ->]|[_ ->]].
      * apply elem_of_cons in Hin as [->|Hin].
        -- by apply elem_of_cons; left.
        -- apply elem_of_cons. right. by apply elem_of_cons; right.
      * apply elem_of_cons. right. by apply elem_of_cons; left.
    + intros x Hx. apply elem_of_cons in Hx as [->|Hx].
      * specialize (Hle a ltac:(by apply elem_of_cons; left)). lia.
      * apply elem_of_cons in Hx as [->|Hx]; [lia|].
        specialize (Hle x ltac:(by apply elem_of_cons; right)). lia.
Qed.

(** [get_stats] of an enabled store purges first: the count is the number
    of records left, every record left lies between the oldest and the
    newest time reported, and the oldest is younger than the tracking
    window; no time is reported exactly when no record is left. *)
Theorem get_stats_after_purge self w :
  Dedup.enabled self = true ->
  let '(st, self', w') := Dedup.get_stats self w in
  Dedup.seen_events self' = surviving self w 1
  /\ Dedup.tracked_events_count st = size (surviving self w 1)
  /\ (forall h ts, Dedup.seen_events self' !! h = Some ts ->
        exists o n,
          Dedup.oldest_tracked_event st = Some o
          /\ Dedup.newest_tracked_event st = Some n
          /\ o <= ts <= n
          /\ clock w (tick w) - Dedup.tracking_window_seconds self < o)
  /\ (Dedup.oldest_tracked_event st = None <-> Dedup.seen_events self' = ∅)
  /\ (Dedup.newest_tracked_event st = None <-> Dedup.seen_events self' = ∅).
Proof.
  intros He. unfold Dedup.get_stats. rewrite cleanup_enabled by done. simpl.
  set (m := surviving self w 1).
  assert (forall l : list Z, Dedup.py_min l = None <-> l = []) as Hmin
    by (intros [|??]; done).
  assert (forall l : list Z, Dedup.py_max l = None <-> l = []) as Hmax
    by (intros [|??]; done).
  assert ((map_to_list m).*2 = [] <-> m = ∅) as Hnil.
  { rewrite <- map_to_list_empty_iff. split.
    - apply fmap_nil_inv.
    - by intros ->. }
  split; [done|]. split; [done|].
  split; [|split; [by rewrite Hmin|by rewrite Hmax]].
  intros h ts Hts.
  assert (ts ∈ (map_to_list m).*2) as Hin.
  { apply list_elem_of_fmap. exists (h, ts). split; [done|].
    by apply elem_of_map_to_list. }
  destruct (Dedup.py_min (map_to_list m).*2) as [o|] eqn:Ho.
  2:{ apply Hmin in Ho. rewrite Ho in Hin. by apply elem_of_nil in Hin. }
  destruct (Dedup.py_max (map_to_list m).*2) as [n|] eqn:Hn.
  2:{ apply Hmax in Hn. rewrite Hn in Hin. by apply elem_of_nil in Hin. }
  apply py_min_spec in Ho as [Hoin Hole].
  apply py_max_spec in Hn as [_ Hnle].
  exists o, n. do 2 (split; [done|]). split; [split; auto|].
  apply list_elem_of_fmap in Hoin as ([h' o'] & -> & Hin').
  apply elem_of_map_to_list in Hin'. simpl.
  subst m. unfold surviving in Hin'.
  apply map_lookup_filter_Some in Hin' as [_ Hf]. simpl in Hf.
  rewrite Forall_singleton, Nat.add_0_r in Hf. done.
Qed.

Lemma get_stats_after_purge_witness :
  Dedup.seen_events (Dedup.get_stats store_stale world_1000).1.2
  = surviving store_stale world_1000 1.
Proof.
  generalize (get_stats_after_purge store_stale world_1000 eq_refl).
  destruct (Dedup.get_stats store_stale world_1000) as [[st self'] w'].
  intros (H1 & _). exact H1.
Defined.

Lemma is_duplicate_after_checks_witness :
  (Dedup.is_duplicate
     (Dedup.filter_duplicates store_recent world_1000 [ev 7; ev 8]).1.2
     (Dedup.filter_duplicates store_recent world_1000 [ev 7; ev 8]).2
     ev_login').1.1 = true.
Proof.
  apply (is_duplicate_after_checks store_recent world_1000 [ev 7; ev 8] ev_login').
  - done.
  - intros i j _. simpl. lia.
  - exists 950. split; vm_compute; [reflexivity|reflexivity].
Defined.

(** ** The sink delivery client *)

(** Edge cases of [send_events_batch]: nothing to send is [(0, [])]
    without a request; with entries, a batch size of zero raises
    [ZeroDivisionError] before any request, and a negative batch size
    posts nothing and reports [(0, [])]. *)
Theorem send_events_batch_edge_cases sink log_entries batch_size :
  Splunk.send_events_batch sink [] batch_size = (Ok (0, []), sink)
  /\ (log_entries <> [] ->
      Splunk.send_events_batch sink log_entries 0
      = (Raise ZeroDivisionError, sink))
  /\ (log_entries <> [] -> batch_size < 0 ->
      Splunk.send_events_batch sink log_entries batch_size = (Ok (0, []), sink)).
Proof.
  split; [done|]. split.
  - intros Hne. unfold Splunk.send_events_batch.
    by rewrite bool_decide_eq_false_2 by done.
  - intros Hne Hb. unfold Splunk.send_events_batch.
    rewrite bool_decide_eq_false_2 by done.
    rewrite bool_decide_eq_false_2 by lia.
    unfold py_range.
    assert ((0 <? batch_size) = false) as -> by (apply Z.ltb_ge; lia).
    done.
Qed.

Lemma send_events_batch_edge_cases_witness :
  Splunk.send_events_batch sink_second_fails five_events (-2)
  = (Ok (0, []), sink_second_fails).
Proof.
  apply (proj2 (proj2 (send_events_batch_edge_cases
                         sink_second_fails five_events (-2)))).
  - done.
  - lia.
Defined.

Lemma confirmed_chunks_sublist sink i cs :
  confirmed_chunks sink i cs `sublist_of` cs.
Proof.
  revert i. induction cs as [|c cs IH]; intros i; simpl; [done|].
  destruct (delivery_confirmed _).
  - by apply sublist_skip.
  - by apply sublist_cons.
Qed.

Lemma sublist_concat {A} (l1 l2 : list (list A)) :
  l1 `sublist_of` l2 -> concat l1 `sublist_of` concat l2.
Proof.
  induction 1 as [|c l1 l2 _ IH|c l1 l2 _ IH]; simpl.
  - done.
  - by apply sublist_app.
  - by apply sublist_inserts_l.
Qed.

Lemma confirmed_chunks_all sink i cs :
  (forall k c, cs !! k = Some c ->
     delivery_confirmed (Splunk.post sink (i + k) c) = true) ->
  confirmed_chunks sink i cs = cs.
Proof.
  revert i. induction cs as [|c cs IH]; intros i Hall; simpl; [done|].
  rewrite <- (Nat.add_0_r i) at 1. rewrite (Hall 0%nat c) by done.
  f_equal. apply IH. intros k c' Hk.
  replace (S i + k)%nat with (i + S k)%nat by lia. by apply Hall.
Qed.

Lemma confirmed_chunks_none sink i cs :
  (forall k c, cs !! k = Some c ->
     delivery_confirmed (Splunk.post sink (i + k) c) = false) ->
  confirmed_chunks sink i cs = [].
Proof.
  revert i. induction cs as [|c cs IH]; intros i Hall; simpl; [done|].
  rewrite <- (Nat.add_0_r i) at 1. rewrite (Hall 0%nat c) by done.
  apply IH. intros k c' Hk.
  replace (S i + k)%nat with (i + S k)%nat by lia. by apply Hall.
Qed.

(** What [send_events_batch] reports as accepted is a subsequence of its
    input, in order, and the count is its length, never more than the
    input's; when every chunk is confirmed it is the whole input, and when
    none is, nothing. *)
Theorem send_events_batch_accepts_subsequence sink log_entries batch_size :
  0 < batch_size ->
  let cs := chunks (Z.to_nat batch_size) log_entries in
  let base := length (Splunk.requests sink) in
  hec_answers sink base cs ->
  exists accepted,
    (Splunk.send_events_batch sink log_entries batch_size).1
      = Ok (len accepted, accepted)
    /\ accepted `sublist_of` log_entries
    /\ len accepted <= len log_entries
    /\ ((forall k c, cs !! k = Some c ->
           delivery_confirmed (Splunk.post sink (base + k) c) = true) ->
        accepted = log_entries)
    /\ ((forall k c, cs !! k = Some c ->
           delivery_confirmed (Splunk.post sink (base + k) c) = false) ->
        accepted = []).
Proof.
  intros Hb cs base Hans.
  exists (concat (confirmed_chunks sink base cs)).
  rewrite send_events_batch_spec by done. simpl.
  assert (concat (confirmed_chunks sink base cs) `sublist_of` log_entries) as Hsub.
  { pose proof (sublist_concat _ _ (confirmed_chunks_sublist sink base cs)) as Hs.
    assert (concat cs = log_entries) as Hc by (apply chunks_concat; lia).
    by rewrite Hc in Hs. }
  split; [done|]. split; [done|]. split; [|split].
  - apply sublist_length in Hsub. unfold len. lia.
  - intros Hall. rewrite confirmed_chunks_all by done.
    apply chunks_concat. lia.
  - intros Hnone. by rewrite confirmed_chunks_none.
Qed.

Lemma send_events_batch_accepts_subsequence_witness :
  exists accepted,
    (Splunk.send_events_batch sink_second_fails five_events 2).1
      = Ok (len accepted, accepted)
    /\ accepted `sublist_of` five_events.
Proof.
  destruct (send_events_batch_accepts_subsequence sink_second_fails
              five_events 2 ltac:(lia)) as (accepted & H1 & H2 & _).
  - vm_compute. repeat split.
  - exists accepted. by split.
Defined.

(** An answer that is JSON but not a mapping, with a status that is no
    error, makes [send_events] raise [AttributeError], which the batch loop
    does not catch: the call raises, the chunks after it are never posted,
    and the chunks confirmed before it are not reported. *)
Theorem send_events_batch_aborts_on_foreign_answer
    sink log_entries batch_size before c after :
  0 < batch_size ->
  chunks (Z.to_nat batch_size) log_entries = before ++ c :: after ->
  hec_answers sink (length (Splunk.requests sink)) before ->
  hec_answer
    (Splunk.post sink (length (Splunk.requests sink) + length before) c)
  = false ->
  Splunk.send_events_batch sink log_entries batch_size
  = (Raise AttributeError,
     Splunk.mkSink (Splunk.post sink) (Splunk.requests sink ++ before ++ [c])).
Proof.
  intros Hb Hcs Hbefore Hc.
  assert (log_entries <> []) as Hne.
  { intros ->. rewrite chunks_nil in Hcs. by destruct before. }
  pose proof (chunks_nonempty (Z.to_nat batch_size) log_entries ltac:(lia)) as Hcne.
  rewrite Hcs in Hcne. apply Forall_app in Hcne as [Hne1 Hne2].
  apply Forall_cons in Hne2 as [Hcne _].
  unfold Splunk.send_events_batch.
  rewrite bool_decide_eq_false_2 by done.
  rewrite bool_decide_eq_false_2 by lia.
  pose proof (batches_are_chunks log_entries batch_size Hb) as Hbatches.
  rewrite Hcs in Hbatches.
  apply fmap_app_inv in Hbatches as (s1 & s2 & Hs1 & Hs2 & Hstarts).
  destruct s2 as [|i s2]; [done|]. injection Hs2 as Hi Hs2.
  rewrite Hstarts, batch_loop_app.
  pose proof (batch_loop_spec s1 log_entries batch_size 0 [] sink) as Hspec.
  cbv zeta in Hspec. change (map ?f s1) with (f <$> s1) in Hspec.
  rewrite <- Hs1 in Hspec. rewrite Hspec by done.
  cbn [Splunk.batch_loop]. rewrite <- Hi.
  rewrite send_events_result by done. simpl.
  rewrite length_app.
  assert (delivery_confirmed
            (Splunk.post sink (length (Splunk.requests sink) + length before) c)
          = false) as Hd.
  { destruct (Splunk.post sink _ c) as [|status [[| | | | |kv]|]];
      simpl in *; try done. }
  rewrite Hd, Hc. simpl. by rewrite <- app_assoc.
Qed.

Lemma send_events_batch_aborts_witness :
  Splunk.send_events_batch sink_second_is_list five_events 2
  = (Raise AttributeError,
     Splunk.mkSink (Splunk.post sink_second_is_list)
       ([] ++ [[ev 0; ev 1]] ++ [[ev 2; ev 3]])).
Proof.
  apply (send_events_batch_aborts_on_foreign_answer sink_second_is_list
           five_events 2 [[ev 0; ev 1]] [ev 2; ev 3] [[ev 4]]).
  - lia.
  - vm_compute. reflexivity.
  - vm_compute. repeat split.
  - vm_compute. reflexivity.
Defined.

(** [health_check] of the collector never raises; it posts exactly one
    request, holding a test event stamped with the current time, and
    answers whether that delivery was confirmed. *)
Theorem splunk_health_check_posts_one_event (isoformat : Z -> string) w sink :
  let probe := [Splunk.test_event isoformat (clock w (tick w))] in
  Splunk.health_check isoformat w sink
  = (Ok (delivery_confirmed
           (Splunk.post sink (length (Splunk.requests sink)) probe)),
     advance w 1,
     Splunk.mkSink (Splunk.post sink) (Splunk.requests sink ++ [probe])).
Proof.
  intros probe. unfold Splunk.health_check, time_time. cbv beta iota zeta.
  fold probe. rewrite send_events_result by done. cbv beta iota zeta.
  unfold advance. rewrite Nat.add_1_r.
  destruct (delivery_confirmed _); [done|].
  by destruct (hec_answer _).
Qed.

(** ** The source fetcher *)

Lemma not_in_optional (c : bool) (k k' : string) (v x : pyval) :
  k <> k' -> (k, v) ∈ (if c then [(k', x)] else []) <-> False.
Proof.
  intros Hk. destruct c; rewrite ?elem_of_cons, ?elem_of_nil; naive_solver.
Qed.

Lemma in_optional_int (k : string) (n : option Z) (v : pyval) :
  (k, v) ∈ match n with
           | Some l => if bool_decide (l = 0) then [] else [(k, PyInt l)]
           | None => []
           end
  <-> exists l, n = Some l /\ l <> 0 /\ v = PyInt l.
Proof.
  destruct n as [l|]; [|rewrite elem_of_nil; naive_solver].
  case_bool_decide; rewrite ?elem_of_cons, ?elem_of_nil; naive_solver.
Qed.

Lemma not_in_optional_int (k k' : string) (n : option Z) (v : pyval) :
  k <> k' ->
  (k, v) ∈ match n with
           | Some l => if bool_decide (l = 0) then [] else [(k', PyInt l)]
           | None => []
           end
  <-> False.
Proof.
  intros Hk. destruct n as [l|]; [|rewrite elem_of_nil; naive_solver].
  case_bool_decide; rewrite ?elem_of_cons, ?elem_of_nil; naive_solver.
Qed.

Section FetcherFacts.

Variable url_path : string -> string.
Variable urlencode : list (string * pyval) -> string.
Variable utc_timestamp : Z -> string.

(** With a token configured, [get_audit_logs] makes exactly one GET, to
    the audit-log URL of the organization, with the bearer token, without
    reading the clock; a limit or an offset of zero is not sent at all; a
    transport failure, an error status and a body that is not JSON raise
    [CrusoeAPIError], a JSON body that is not a mapping raises
    [AttributeError], and a mapping without [items] gives no event. *)
Theorem get_audit_logs_with_token config w src start_time end_time limit offset :
  Crusoe.truthy (Crusoe.api_token config) = true ->
  exists req,
    let answer := Crusoe.get src (length (Crusoe.gets src)) req in
    Crusoe.get_audit_logs url_path urlencode utc_timestamp config (w, src)
      start_time end_time limit offset
    = (match answer with
       | TransportError => Raise CrusoeAPIError
       | Response status body =>
           if (400 <=? status) && (status <? 600) then Raise CrusoeAPIError
           else match body with
                | None => Raise CrusoeAPIError
                | Some (Crusoe.Mapping items) => Ok (default [] items)
                | Some Crusoe.NotMapping => Raise AttributeError
                end
       end,
       (w, Crusoe.mkSource (Crusoe.get src) (Crusoe.gets src ++ [req])))
    /\ Crusoe.req_url req
       = (Crusoe.base_url config ++ "/organizations/"
            ++ Crusoe.organization_id config ++ "/audit-logs")%string
    /\ ("Authorization",
        ("Bearer " ++ default "" (Crusoe.api_token config))%string)
       ∈ Crusoe.req_headers req
    /\ (forall v, ("limit", v) ∈ Crusoe.req_params req
                  <-> exists l, limit = Some l /\ l <> 0 /\ v = PyInt l)
    /\ (forall v, ("offset", v) ∈ Crusoe.req_params req
                  <-> exists o, offset = Some o /\ o <> 0 /\ v = PyInt o).
Proof.
  intros Ht. eexists. cbv zeta.
  unfold Crusoe.get_audit_logs, Crusoe._sign_request. rewrite Ht.
  unfold Crusoe.session_get. cbv beta iota zeta.
  split; [|split; [|split; [|split]]].
  - f_equal.
    destruct (Crusoe.get src _ _) as [|status [[items|]|]]; simpl; try done;
      unfold raise_for_status;
      by destruct ((400 <=? status) && (status <? 600)).
  - done.
  - simpl. do 2 (apply elem_of_cons; right). by apply elem_of_cons; left.
  - intros v. simpl. rewrite !elem_of_app.
    rewrite (not_in_optional (Crusoe.truthy start_time)) by done.
    rewrite (not_in_optional (Crusoe.truthy end_time)) by done.
    rewrite (in_optional_int "limit" limit).
    rewrite (not_in_optional_int "limit" "offset" offset) by done.
    naive_solver.
  - intros v. simpl. rewrite !elem_of_app.
    rewrite (not_in_optional (Crusoe.truthy start_time)) by done.
    rewrite (not_in_optional (Crusoe.truthy end_time)) by done.
    rewrite (not_in_optional_int "offset" "limit" limit) by done.
    rewrite (in_optional_int "offset" offset).
    naive_solver.
Qed.

End FetcherFacts.

Lemma get_audit_logs_with_token_witness :
  (Crusoe.get_audit_logs (fun u => u) (fun _ => "") (fun _ => "")
     config_token (world_1000, source_idle) None None (Some 100) (Some 0)).1
  = Ok [].
Proof.
  destruct (get_audit_logs_with_token (fun u => u) (fun _ => "") (fun _ => "")
              config_token world_1000 source_idle None None (Some 100) (Some 0)
              eq_refl) as (req & -> & _).
  reflexivity.
Defined.

Section PaginationEdges.

Context {S : Type}.
Variable fetch : S -> Z -> Z -> result (list Event) * S.

Lemma paginate_loop_cap_zero fuel page_size :
  forall s all_logs offset page_count calls,
    Crusoe.paginate_loop fetch fuel s page_size (Some 0)
      all_logs offset page_count calls
    = Crusoe.paginate_loop fetch fuel s page_size None
        all_logs offset page_count calls.
Proof.
  induction fuel as [|fuel IH]; intros s all_logs offset page_count calls;
    [done|].
  cbn [Crusoe.paginate_loop Crusoe.cap_reached]. simpl.
  destruct (fetch s page_size offset) as [[logs|e] s1]; [|done].
  destruct (bool_decide (logs = [])); [done|].
  destruct (bool_decide (len logs < page_size)); [done|]. apply IH.
Qed.

(** A page cap of zero is no cap at all, and a negative page cap ends the
    paginated fetch before its first request, with no event. *)
Theorem pagination_cap_zero_or_negative fuel s page_size :
  Crusoe.get_audit_logs_paginated fetch fuel s page_size (Some 0)
  = Crusoe.get_audit_logs_paginated fetch fuel s page_size None
  /\ forall m, m < 0 ->
       Crusoe.get_audit_logs_paginated fetch (Datatypes.S fuel) s page_size (Some m)
       = Some (Ok [], s, []).
Proof.
  split; [apply paginate_loop_cap_zero|].
  intros m Hm. unfold Crusoe.get_audit_logs_paginated.
  cbn [Crusoe.paginate_loop Crusoe.cap_reached].
  rewrite bool_decide_eq_false_2 by lia.
  by rewrite bool_decide_eq_true_2 by lia.
Qed.

(** With a positive page cap the paginated fetch makes at most that many
    requests, and whatever it returns is the pages fetched, put together
    in order. *)
Theorem pagination_respects_cap fuel s page_size m r s' tr :
  0 < m ->
  Crusoe.get_audit_logs_paginated fetch fuel s page_size (Some m)
    = Some (r, s', tr) ->
  Z.of_nat (length tr) <= m
  /\ forall logs, r = Ok logs -> logs = concat (pages_of tr).
Proof.
  intros Hm Hrun.
  assert (pagination_post page_size (Some m) tr r) as (_ & _ & Hcap & Hstop).
  { eapply paginate_loop_post; [|apply Hrun].
    repeat split; try done. intros k Hk. simpl in Hk. lia. }
  split.
  - destruct (decide (Z.of_nat (length tr) <= m)) as [|Hgt]; [done|].
    specialize (Hcap (Z.to_nat m) ltac:(lia)).
    unfold Crusoe.cap_reached in Hcap.
    rewrite bool_decide_eq_false_2 in Hcap by lia. simpl in Hcap.
    apply bool_decide_eq_false in Hcap. lia.
  - intros logs ->. unfold stop_and_result in Hstop.
    destruct (last tr) as [c|] eqn:Hlast.
    + destruct (Crusoe.call_result c) as [p|e].
      * destruct Hstop as [Heq _]. by injection Heq.
      * destruct (is_CrusoeAPIError e); [done|].
        destruct (is_Exception e); [by injection Hstop|done].
    + apply last_None in Hlast. subst tr. destruct Hstop as [Heq _].
      by injection Heq.
Qed.

End PaginationEdges.

Lemma pagination_respects_cap_witness :
  Z.of_nat (length [Crusoe.mkCall 1 0 (Ok [ev 0]); Crusoe.mkCall 1 1 (Ok [ev 1])])
  <= 2.
Proof.
  apply (pagination_respects_cap fetch_three 5 0%nat 1 2
           (Ok [ev 0; ev 1]) 2%nat
           [Crusoe.mkCall 1 0 (Ok [ev 0]); Crusoe.mkCall 1 1 (Ok [ev 1])]).
  - lia.
  - vm_compute. reflexivity.
Defined.

(** ** The request signer *)

Lemma string_length_app (s1 s2 : string) :
  String.length (s1 ++ s2)%string = (String.length s1 + String.length s2)%nat.
Proof. induction s1 as [|c s1 IH]; simpl; [done|]. by rewrite IH. Qed.

Lemma str_repeat_eq_length n : String.length (PyLib.str_repeat_eq n) = n.
Proof. induction n as [|n IH]; simpl; [done|]. by rewrite IH. Qed.

(** The padding that the signer appends to the secret brings its length to
    a multiple of four and adds at most three characters. *)
Theorem padded_secret_length (secret : string) :
  (String.length (padded secret) mod 4 = 0)%nat
  /\ (String.length (padded secret) < String.length secret + 4)%nat.
Proof.
  unfold padded. rewrite string_length_app, str_repeat_eq_length.
  set (n := String.length secret).
  assert (0 <= (- Z.of_nat n) mod 4 < 4) as Hr by (apply Z.mod_pos_bound; lia).
  split; [|lia].
  apply Nat2Z.inj. rewrite Nat2Z.inj_mod, Nat2Z.inj_add, Z2Nat.id by lia.
  rewrite Zplus_mod_idemp_r. replace (Z.of_nat n + - Z.of_nat n) with 0 by lia.
  done.
Qed.

Section SignerModes.

Variable url_path : string -> string.
Variable urlencode : list (string * pyval) -> string.
Variable utc_timestamp : Z -> string.

Lemma create_signature_outcomes config w method url params :
  match (Crusoe._create_crusoe_signature url_path urlencode utc_timestamp
           config w method url params).1 with
  | Ok hs => exists v, ("Authorization", v) ∈ hs
  | Raise e => e = CrusoeAPIError \/ e = ValueError
  end.
Proof.
  unfold Crusoe._create_crusoe_signature, time_time. cbv beta iota zeta.
  cbn [fst].
  destruct (PyLib.urlsafe_b64decode _) as [bs|]; simpl; [|by left].
  destruct (PyLib.is_ascii_str _); simpl; [|by right].
  eexists. apply elem_of_cons. right. by apply elem_of_cons; left.
Qed.

(** A configuration passes [validate_config] exactly when it has a token
    or both keys, an organization, a collector token and a collector URL;
    with such a configuration a request is never signed with no header:
    signing yields an [Authorization] header or raises; a token takes
    precedence over keys and is used as it is, without reading the clock.
    A configuration with no credentials, in contrast, is signed with no
    header at all. *)
Theorem validated_config_authenticates cfg w method url params :
  let c := Config.crusoe cfg in
  let r := Crusoe._sign_request url_path urlencode utc_timestamp
             c w method url params in
  (Config.validate_config cfg = Ok tt
   <-> (Crusoe.truthy (Crusoe.api_token c) = true
        \/ (Crusoe.truthy (Crusoe.access_key_id c) = true
            /\ Crusoe.truthy (Crusoe.secret_access_key c) = true))
       /\ Crusoe.organization_id c <> ""
       /\ Config.hec_token (Config.splunk cfg) <> ""
       /\ Config.hec_url (Config.splunk cfg) <> "")
  /\ (Config.validate_config cfg = Ok tt ->
      match r.1 with
      | Ok hs => exists v, ("Authorization", v) ∈ hs
      | Raise e => e = CrusoeAPIError \/ e = ValueError
      end)
  /\ (Crusoe.truthy (Crusoe.api_token c) = true ->
      r = (Ok [("Authorization",
                ("Bearer " ++ default "" (Crusoe.api_token c))%string)], w))
  /\ (Crusoe.truthy (Crusoe.api_token c) = false ->
      Crusoe.truthy (Crusoe.access_key_id c)
      && Crusoe.truthy (Crusoe.secret_access_key c) = false ->
      r = (Ok [], w)).
Proof.
  intros c r.
  assert (Config.validate_config cfg = Ok tt
          <-> (Crusoe.truthy (Crusoe.api_token c) = true
               \/ (Crusoe.truthy (Crusoe.access_key_id c) = true
                   /\ Crusoe.truthy (Crusoe.secret_access_key c) = true))
              /\ Crusoe.organization_id c <> ""
              /\ Config.hec_token (Config.splunk cfg) <> ""
              /\ Config.hec_url (Config.splunk cfg) <> "") as Hval.
  { unfold Config.validate_config. fold c.
    destruct (Crusoe.truthy (Crusoe.api_token c)),
      (Crusoe.truthy (Crusoe.access_key_id c)),
      (Crusoe.truthy (Crusoe.secret_access_key c)); simpl;
      repeat case_bool_decide; naive_solver. }
  split; [done|]. split; [|split].
  - intros Hok. apply Hval in Hok as [Hcred _].
    subst r. unfold Crusoe._sign_request.
    destruct (Crusoe.truthy (Crusoe.api_token c)) eqn:Ht.
    + simpl. eexists. by apply elem_of_cons; left.
    + destruct Hcred as [|[-> ->]]; [done|]. simpl.
      apply create_signature_outcomes.
  - intros Ht. subst r. unfold Crusoe._sign_request. by rewrite Ht.
  - intros Ht Hk. subst r. unfold Crusoe._sign_request. by rewrite Ht, Hk.
Qed.

End SignerModes.

Lemma validated_config_authenticates_witness :
  Crusoe._sign_request (fun u => u) (fun _ => "") (fun _ => "")
    config_token world_1000 "GET" "https://api.crusoecloud.com/v1alpha5/x" []
  = (Ok [("Authorization", "Bearer tok-1")], world_1000).
Proof.
  apply (proj1 (proj2 (proj2 (validated_config_authenticates
           (fun u => u) (fun _ => "") (fun _ => "")
           app_config_token world_1000 "GET"
           "https://api.crusoecloud.com/v1alpha5/x" [])))).
  reflexivity.
Defined.

(** ** One forwarding cycle *)

Lemma mark_loop_dom seen t es h :
  h ∈ dom (Dedup.mark_loop seen t es)
  <-> h ∈ dom seen \/ h ∈ map Dedup._generate_event_hash es.
Proof.
  rewrite !elem_of_dom. unfold is_Some. rewrite mark_loop_lookup.
  destruct (seen !! h) as [ts|]; [naive_solver|].
  case_decide; naive_solver.
Qed.

Section ForwardFacts.

Variable url_path : string -> string.
Variable urlencode : list (string * pyval) -> string.
Variable utc_timestamp : Z -> string.
Variable isoformat : Z -> string.

(** When the fetch raises, [forward_logs] raises the same exception; when
    it finds no event, [forward_logs] returns 0; in both cases the store
    is not consulted and nothing is posted to the collector. *)
Lemma forward_logs_no_events fuel self env start_time end_time dry_run
    r w1 src1 tr :
  fetched url_path urlencode utc_timestamp fuel self env start_time end_time
    = Some (r, (w1, src1), tr) ->
  (forall e logs, r <> Ok (e :: logs)) ->
  Main.forward_logs url_path urlencode utc_timestamp isoformat fuel self env
    start_time end_time dry_run
  = Some (match r with Raise e => Raise e | Ok _ => Ok 0 end,
          self, Main.mkEnv w1 src1 (Main.sink env)).
Proof.
  intros Hf Hr. unfold fetched in Hf. unfold Main.forward_logs. rewrite Hf.
  destruct r as [[|e logs]|e]; [done| |done]. by destruct (Hr e logs).
Qed.

Lemma get_audit_logs_not_mapping config w src start_time end_time limit offset :
  Crusoe.truthy (Crusoe.api_token config) = true ->
  (forall req,
     Crusoe.get src (length (Crusoe.gets src)) req
     = Response 200 (Some Crusoe.NotMapping)) ->
  exists req,
    Crusoe.get_audit_logs url_path urlencode utc_timestamp config (w, src)
      start_time end_time limit offset
    = (Raise AttributeError,
       (w, Crusoe.mkSource (Crusoe.get src) (Crusoe.gets src ++ [req]))).
Proof.
  intros Ht Hans. eexists.
  unfold Crusoe.get_audit_logs, Crusoe._sign_request. rewrite Ht.
  unfold Crusoe.session_get. cbv beta iota zeta. by rewrite Hans.
Qed.

(** A page whose body is JSON but not a mapping is not an API error: with
    a token configured, the paginated fetch swallows the [AttributeError]
    and the forwarding cycle ends as a success with 0 events, after one
    request to the source and none to the collector. *)
Theorem forward_logs_swallows_malformed_page fuel self env start_time end_time
    dry_run :
  Crusoe.truthy (Crusoe.api_token (Main.config self)) = true ->
  (forall req,
     Crusoe.get (Main.source env) (length (Crusoe.gets (Main.source env))) req
     = Response 200 (Some Crusoe.NotMapping)) ->
  exists req,
    Main.forward_logs url_path urlencode utc_timestamp isoformat
      (Datatypes.S fuel) self env start_time end_time dry_run
    = Some (Ok 0, self,
            Main.mkEnv (Main.world env)
              (Crusoe.mkSource (Crusoe.get (Main.source env))
                 (Crusoe.gets (Main.source env) ++ [req]))
              (Main.sink env)).
Proof.
  intros Ht Hans.
  destruct (get_audit_logs_not_mapping (Main.config self) (Main.world env)
              (Main.source env) start_time end_time
              (Some (Main.batch_size self)) (Some 0) Ht Hans)
    as (req & Hget).
  exists req.
  apply (forward_logs_no_events (Datatypes.S fuel) self env start_time end_time
           dry_run (Ok []) _ _
           [Crusoe.mkCall (Main.batch_size self) 0 (Raise AttributeError)]);
    [|done].
  unfold fetched, Crusoe.get_audit_logs_paginated.
  cbn [Crusoe.paginate_loop Crusoe.cap_reached]. by rewrite Hget.
Qed.

End ForwardFacts.

Lemma forward_logs_swallows_malformed_page_witness :
  exists req,
    Main.forward_logs (fun u => u) (fun _ => "") (fun _ => "") (fun _ => "") 1
      forwarder_token
      (Main.mkEnv world_1000 source_answers_list sink_second_fails)
      None None false
    = Some (Ok 0, forwarder_token,
            Main.mkEnv world_1000
              (Crusoe.mkSource (Crusoe.get source_answers_list) ([] ++ [req]))
              sink_second_fails).
Proof.
  apply (forward_logs_swallows_malformed_page (fun u => u) (fun _ => "")
           (fun _ => "") (fun _ => "") 0 forwarder_token
           (Main.mkEnv world_1000 source_answers_list sink_second_fails)
           None None false).
  - reflexivity.
  - done.
Defined.

Section ForwardCommit.

Variable url_path : string -> string.
Variable urlencode : list (string * pyval) -> string.
Variable utc_timestamp : Z -> string.
Variable isoformat : Z -> string.

(** A forwarding cycle with a store commits what the collector confirmed
    and nothing else: the events fetched are filtered, the events kept are
    posted in chunks, the count returned is the number of events accepted,
    and afterwards a fingerprint is recorded exactly when it was recorded
    (and not expired) before or belongs to an accepted event. *)
Theorem forward_logs_commits_only_accepted fuel self env start_time end_time
    d logs w1 src1 tr :
  fetched url_path urlencode utc_timestamp fuel self env start_time end_time
    = Some (Ok logs, (w1, src1), tr) ->
  logs <> [] ->
  Main.deduplicator self = Some d -> Dedup.enabled d = true ->
  0 < Main.batch_size self ->
  let kept := kept_from d w1 0 logs in
  let cs := chunks (Z.to_nat (Main.batch_size self)) kept in
  let base := length (Splunk.requests (Main.sink env)) in
  let accepted := concat (confirmed_chunks (Main.sink env) base cs) in
  hec_answers (Main.sink env) base cs ->
  exists self' env' d',
    Main.forward_logs url_path urlencode utc_timestamp isoformat fuel self env
      start_time end_time false
    = Some (Ok (len accepted), self', env')
    /\ Main.deduplicator self' = Some d'
    /\ (forall h, h ∈ dom (Dedup.seen_events d')
                  <-> h ∈ dom (surviving d w1 (length logs))
                      \/ h ∈ map Dedup._generate_event_hash accepted)
    /\ Splunk.requests (Main.sink env')
       = Splunk.requests (Main.sink env) ++ cs
    /\ Main.source env' = src1.
Proof.
  intros Hf Hne Hd He Hb kept cs base accepted Hans.
  unfold fetched in Hf. unfold Main.forward_logs. rewrite Hf.
  rewrite bool_decide_eq_false_2 by done. rewrite Hd.
  rewrite filter_duplicates_spec by done. fold kept.
  destruct (decide (kept = [])) as [Hk|Hk].
  { rewrite bool_decide_eq_true_2 by done.
    assert (cs = []) as Hcs by (subst cs; by rewrite Hk).
    assert (accepted = []) as Hacc by (subst accepted; by rewrite Hcs).
    rewrite Hacc, Hcs. eexists _, _, _. split; [done|]. simpl.
    split; [done|]. split; [|by rewrite app_nil_r].
    intros h. rewrite elem_of_nil. naive_solver. }
  rewrite bool_decide_eq_false_2 by done.
  rewrite send_events_batch_spec by done. fold cs base accepted.
  cbn [Main.deduplicator Main.set_deduplicator].
  destruct (decide (accepted = [])) as [Hacc|Hacc].
  - rewrite bool_decide_eq_true_2 by done. rewrite Hacc.
    eexists _, _, _. split; [done|]. simpl. split; [done|].
    split; [|done]. intros h. rewrite elem_of_nil. naive_solver.
  - rewrite bool_decide_eq_false_2 by done.
    destruct (Dedup.mark_events_as_sent _ _ _ _) as [d2 w3] eqn:Hmark.
    eexists _, _, d2. split; [done|]. simpl. split; [done|].
    split; [|done].
    intros h. unfold Dedup.mark_events_as_sent in Hmark. simpl in Hmark.
    rewrite He in Hmark. simpl in Hmark.
    rewrite bool_decide_eq_false_2 in Hmark by done.
    injection Hmark as <- _. simpl. apply mark_loop_dom.
Qed.

(** A dry run filters but neither posts nor records: it returns the number
    of events that would be sent, the collector sees no request, the state
    file stays as it was, and the store gains no record. *)
Theorem forward_logs_dry_run fuel self env start_time end_time
    d logs w1 src1 tr :
  fetched url_path urlencode utc_timestamp fuel self env start_time end_time
    = Some (Ok logs, (w1, src1), tr) ->
  logs <> [] ->
  Main.deduplicator self = Some d -> Dedup.enabled d = true ->
  exists self' env' d',
    Main.forward_logs url_path urlencode utc_timestamp isoformat fuel self env
      start_time end_time true
    = Some (Ok (len (kept_from d w1 0 logs)), self', env')
    /\ Main.sink env' = Main.sink env
    /\ disk (Main.world env') = disk w1
    /\ Main.deduplicator self' = Some d'
    /\ Dedup.seen_events d' ⊆ Dedup.seen_events d.
Proof.
  intros Hf Hne Hd He.
  unfold fetched in Hf. unfold Main.forward_logs. rewrite Hf.
  rewrite bool_decide_eq_false_2 by done. rewrite Hd.
  rewrite filter_duplicates_spec by done.
  destruct (decide (kept_from d w1 0 logs = [])) as [Hk|Hk].
  - rewrite bool_decide_eq_true_2 by done. rewrite Hk.
    eexists _, _, _. split; [done|]. simpl. do 3 (split; [done|]).
    apply surviving_subseteq.
  - rewrite bool_decide_eq_false_2 by done.
    eexists _, _, _. split; [done|]. simpl. do 3 (split; [done|]).
    apply surviving_subseteq.
Qed.

End ForwardCommit.

Lemma forward_logs_commits_only_accepted_witness :
  exists self' env' d',
    Main.forward_logs (fun u => u) (fun _ => "") (fun _ => "") (fun _ => "") 5
      forwarder_token (Main.mkEnv world_1000 source_three sink_second_fails)
      None None false
    = Some (Ok 2, self', env')
    /\ Main.deduplicator self' = Some d'.
Proof.
  destruct (forward_logs_commits_only_accepted (fun u => u) (fun _ => "")
              (fun _ => "") (fun _ => "") 5 forwarder_token
              (Main.mkEnv world_1000 source_three sink_second_fails)
              None None store_recent [ev 0; ev 1; ev 2]
              world_1000
              (Crusoe.mkSource (Crusoe.get source_three)
                 [Crusoe.mkRequest
                    "https://api.crusoecloud.com/v1alpha5/organizations/org-1/audit-logs"
                    [("limit", PyInt 2)]
                    [("Content-Type", "application/json");
                     ("User-Agent", "crusoe-splunk-hec/1.0");
                     ("Authorization", "Bearer tok-1")];
                  Crusoe.mkRequest
                    "https://api.crusoecloud.com/v1alpha5/organizations/org-1/audit-logs"
                    [("limit", PyInt 2); ("offset", PyInt 2)]
                    [("Content-Type", "application/json");
                     ("User-Agent", "crusoe-splunk-hec/1.0");
                     ("Authorization", "Bearer tok-1")]])
              [Crusoe.mkCall 2 0 (Ok [ev 0; ev 1]); Crusoe.mkCall 2 2 (Ok [ev 2])])
    as (self' & env' & d' & H1 & H2 & _).
  - vm_compute. reflexivity.
  - done.
  - done.
  - done.
  - done.
  - vm_compute. repeat split.
  - exists self', env', d'. split; [|done]. rewrite H1. reflexivity.
Defined.

Lemma forward_logs_dry_run_witness :
  exists self' env',
    Main.forward_logs (fun u => u) (fun _ => "") (fun _ => "") (fun _ => "") 5
      forwarder_token (Main.mkEnv world_1000 source_three sink_second_fails)
      None None true
    = Some (Ok 3, self', env')
    /\ Main.sink env' = sink_second_fails.
Proof.
  destruct (forward_logs_dry_run (fun u => u) (fun _ => "")
              (fun _ => "") (fun _ => "") 5 forwarder_token
              (Main.mkEnv world_1000 source_three sink_second_fails)
              None None store_recent [ev 0; ev 1; ev 2]
              world_1000
              (Crusoe.mkSource (Crusoe.get source_three)
                 [Crusoe.mkRequest
                    "https://api.crusoecloud.com/v1alpha5/organizations/org-1/audit-logs"
                    [("limit", PyInt 2)]
                    [("Content-Type", "application/json");
                     ("User-Agent", "crusoe-splunk-hec/1.0");
                     ("Authorization", "Bearer tok-1")];
                  Crusoe.mkRequest
                    "https://api.crusoecloud.com/v1alpha5/organizations/org-1/audit-logs"
                    [("limit", PyInt 2); ("offset", PyInt 2)]
                    [("Content-Type", "application/json");
                     ("User-Agent", "crusoe-splunk-hec/1.0");
                     ("Authorization", "Bearer tok-1")]])
              [Crusoe.mkCall 2 0 (Ok [ev 0; ev 1]); Crusoe.mkCall 2 2 (Ok [ev 2])])
    as (self' & env' & d' & H1 & H2 & _).
  - vm_compute. reflexivity.
  - done.
  - done.
  - done.
  - exists self', env'. split; [|done]. rewrite H1. reflexivity.
Defined.

(** ** The daemon *)

Lemma last_omap_later {A B} (f : A -> option B) (l : list A) i x y :
  l !! i = Some x -> f x = Some y ->
  exists j x' y', (i <= j)%nat /\ l !! j = Some x' /\ f x' = Some y'
                  /\ last (omap f l) = Some y'.
Proof.
  revert i x y. induction l as [|a l IH] using rev_ind; intros i x y Hi Hx.
  - done.
  - rewrite omap_app. simpl. destruct (f a) as [b|] eqn:Ha.
    + exists (length l), a, b. pose proof (lookup_lt_Some _ _ _ Hi) as Hlt.
      rewrite length_app in Hlt. simpl in Hlt.
      split; [lia|]. split; [by rewrite list_lookup_middle|].
      split; [done|]. by rewrite last_snoc.
    + rewrite app_nil_r.
      assert (i < length l)%nat as Hlt.
      { pose proof (lookup_lt_Some _ _ _ Hi) as Hlt.
        rewrite length_app in Hlt. simpl in Hlt.
        destruct (decide (i = length l)) as [->|]; [|lia].
        rewrite list_lookup_middle in Hi by done. congruence. }
      rewrite lookup_app_l in Hi by done.
      destruct (IH i x y Hi Hx) as (j & x' & y' & Hj & Hl & Hf & Hlast).
      exists j, x', y'. split; [done|]. split; [|done].
      rewrite lookup_app_l; [done|]. by eapply lookup_lt_Some.
Qed.

Lemma windows_cover lookback (log : list Main.cycle) :
  windows_follow lookback log ->
  forall k i ci ck ni nk t,
    log !! i = Some ci -> log !! k = Some ck -> (i <= k)%nat ->
    Main.cycle_result ci = Ok ni -> Main.cycle_result ck = Ok nk ->
    Main.cycle_start ci <= t < Main.cycle_end ck ->
    exists j cj nj, (i <= j <= k)%nat /\ log !! j = Some cj
      /\ Main.cycle_result cj = Ok nj
      /\ Main.cycle_start cj <= t < Main.cycle_end cj.
Proof.
  intros Hw k. induction (lt_wf k) as [k _ IH].
  intros i ci ck ni nk t Hi Hk Hik Hci Hck Ht.
  destruct (decide (Main.cycle_start ck <= t)) as [Hs|Hs].
  { exists k, ck, nk. repeat split; try done; lia. }
  assert (i < k)%nat as Hlt.
  { destruct (decide (i = k)) as [->|]; [|lia].
    assert (ci = ck) as -> by congruence. lia. }
  pose proof (Hw k ck Hk) as Hstart.
  assert (take k log !! i = Some ci) as Hi' by (by rewrite lookup_take_lt).
  destruct (last_omap_later
              (fun c => match Main.cycle_result c with
                        | Ok _ => Some (Main.cycle_end c)
                        | Raise _ => None
                        end) (take k log) i ci (Main.cycle_end ci) Hi')
    as (j & cj & e & Hij & Hj & Hcj & Hlast).
  { by rewrite Hci. }
  unfold last_successful_end in Hstart. rewrite Hlast in Hstart.
  assert (j < k)%nat as Hjk.
  { pose proof (lookup_lt_Some _ _ _ Hj) as Hl. rewrite length_take in Hl. lia. }
  rewrite lookup_take_lt in Hj by done.
  destruct (Main.cycle_result cj) as [nj|] eqn:Hrj; [|done].
  injection Hcj as <-.
  assert (0 < Main.timedelta 30) as Hpos by (unfold Main.timedelta; lia).
  destruct (IH j Hjk i ci cj ni nj t Hi Hj Hij Hci Hrj)
    as (j' & cj' & nj' & Hb & Hl' & Hr' & Ht'); [lia|].
  exists j', cj', nj'. repeat split; try done; lia.
Qed.

Section DaemonRuns.

Context {St : Type}.
Variable now : St -> Z * St.
Variable forward : St -> Z -> Z -> result Z * St.
Variable lookback : Z.

(** The windows of the cycles that completed leave no gap: an instant
    between the start of one completed cycle's window and the end of a
    later one's lies in the window of a completed cycle between the two,
    whatever cycles failed in between and whatever the clock did. *)
Theorem daemon_windows_leave_no_gap n st i k ci ck ni nk t :
  let log := Main.cycles_run (Main.daemon now forward lookback n st) in
  log !! i = Some ci -> log !! k = Some ck -> (i <= k)%nat ->
  Main.cycle_result ci = Ok ni -> Main.cycle_result ck = Ok nk ->
  Main.cycle_start ci <= t < Main.cycle_end ck ->
  exists j cj nj, (i <= j <= k)%nat /\ log !! j = Some cj
    /\ Main.cycle_result cj = Ok nj
    /\ Main.cycle_start cj <= t < Main.cycle_end cj.
Proof.
  intros log. apply (windows_cover lookback).
  assert (daemon_inv lookback (Main.daemon now forward lookback n st)) as [_ Hw].
  { apply daemon_loop_inv. split; [done|]. intros k' c Hk'. done. }
  done.
Qed.

Lemma daemon_cycle_goes_on d :
  exists c, Main.cycles_run (Main.daemon_cycle now forward lookback d)
            = Main.cycles_run d ++ [c]
            /\ Main.interrupted (Main.daemon_cycle now forward lookback d)
               = negb (goes_on c).
Proof.
  unfold Main.daemon_cycle.
  destruct (now (Main.env_state d)) as [end_time st1].
  destruct (forward st1 _ end_time) as [[sent|e] st2].
  - by eexists.
  - unfold goes_on.
    destruct (is_Exception e) eqn:He; eexists; (split; [reflexivity|]);
      simpl; by rewrite He.
Qed.

Lemma daemon_loop_goes_on n d :
  Main.interrupted d = false -> Forall (fun c => goes_on c = true) (Main.cycles_run d) ->
  let d' := Main.daemon_loop now forward lookback n d in
  if Main.interrupted d' then
    exists log c, Main.cycles_run d' = log ++ [c] /\ goes_on c = false
      /\ Forall (fun c => goes_on c = true) log
      /\ (length (Main.cycles_run d) <= length log < length (Main.cycles_run d) + n)%nat
  else
    Forall (fun c => goes_on c = true) (Main.cycles_run d')
    /\ length (Main.cycles_run d') = (length (Main.cycles_run d) + n)%nat.
Proof.
  revert d. induction n as [|n IH]; intros d Hd Hall; simpl.
  - rewrite Hd. split; [done|lia].
  - destruct (daemon_cycle_goes_on d) as (c & Hlog & Hint).
    destruct (Main.interrupted (Main.daemon_cycle now forward lookback d)) eqn:Hi.
    + rewrite Hi. exists (Main.cycles_run d), c.
      split; [done|]. split; [by destruct (goes_on c)|]. split; [done|lia].
    + assert (goes_on c = true) as Hc by (by destruct (goes_on c)).
      specialize (IH (Main.daemon_cycle now forward lookback d) Hi).
      rewrite Hlog in IH. rewrite length_app in IH. simpl in IH.
      cbv zeta in IH.
      destruct (Main.interrupted
                  (Main.daemon_loop now forward lookback n
                     (Main.daemon_cycle now forward lookback d))).
      * destruct IH as (log & c' & Hl & Hc' & Hq & Hlen).
        { apply Forall_app. split; [done|]. by apply Forall_singleton. }
        exists log, c'. repeat split; try done; lia.
      * destruct IH as [Hq Hlen].
        { apply Forall_app. split; [done|]. by apply Forall_singleton. }
        split; [done|lia].
Qed.

(** A cycle that raises an [Exception] does not stop the daemon: after [n]
    passes through the loop either [n] cycles have run and none raised
    anything but an [Exception], or the last cycle run raised something
    else (a [KeyboardInterrupt]), no cycle before it did, and no cycle ran
    after it. *)
Theorem daemon_stops_only_on_interrupt n st :
  let d := Main.daemon now forward lookback n st in
  if Main.interrupted d then
    exists log c e, Main.cycles_run d = log ++ [c]
      /\ Main.cycle_result c = Raise e /\ is_Exception e = false
      /\ Forall (fun c => goes_on c = true) log
      /\ (length log < n)%nat
  else
    Forall (fun c => goes_on c = true) (Main.cycles_run d)
    /\ length (Main.cycles_run d) = n.
Proof.
  intros d. subst d. unfold Main.daemon.
  pose proof (daemon_loop_goes_on n (Main.mkDaemon None st [] false)
                eq_refl (Forall_nil_2 _)) as H.
  cbv zeta in H. simpl in H.
  destruct (Main.interrupted _); [|done].
  destruct H as (log & c & Hl & Hc & Hq & Hlen).
  unfold goes_on in Hc. destruct (Main.cycle_result c) as [|e] eqn:Hr; [done|].
  exists log, c, e. repeat split; try done; lia.
Qed.

End DaemonRuns.

Lemma daemon_windows_leave_no_gap_witness :
  exists j cj nj, (1 <= j <= 2)%nat
    /\ Main.cycles_run
         (Main.daemon now_every_300 forward_first_fails 600 3 0%nat) !! j
       = Some cj
    /\ Main.cycle_result cj = Ok nj
    /\ Main.cycle_start cj <= Main.timedelta 1000 < Main.cycle_end cj.
Proof.
  apply (daemon_windows_leave_no_gap now_every_300 forward_first_fails 600
           3 0%nat 1 2
           (Main.mkCycle (Main.timedelta 700) (Main.timedelta 1300) (Ok 0))
           (Main.mkCycle (Main.timedelta 1270) (Main.timedelta 1600) (Ok 0))
           0 0 (Main.timedelta 1000)).
  - vm_compute. reflexivity.
  - vm_compute. reflexivity.
  - lia.
  - reflexivity.
  - reflexivity.
  - unfold Main.timedelta. simpl. lia.
Defined.

(** ** The health checks *)

Section HealthChecks.

Variable url_path : string -> string.
Variable urlencode : list (string * pyval) -> string.
Variable utc_timestamp : Z -> string.
Variable isoformat : Z -> string.

Lemma get_audit_logs_raises config st start_time end_time limit offset e :
  (Crusoe.get_audit_logs url_path urlencode utc_timestamp config st
     start_time end_time limit offset).1 = Raise e ->
  e = CrusoeAPIError \/ e = ValueError \/ e = AttributeError.
Proof.
  destruct st as [w src]. unfold Crusoe.get_audit_logs. cbv beta iota zeta.
  set (url := (_ ++ _)%string). set (params := (_ ++ _)%list).
  unfold Crusoe._sign_request.
  destruct (Crusoe.truthy (Crusoe.api_token config)).
  - unfold Crusoe.session_get. cbv beta iota zeta. cbn [fst].
    destruct (Crusoe.get src _ _) as [|status [[items|]|]]; simpl;
      try (intros [= <-]; by left);
      unfold raise_for_status; destruct (_ && _); simpl;
      intros [= <-]; auto.
  - destruct (_ && _).
    + pose proof (create_signature_outcomes url_path urlencode utc_timestamp
                    config w "GET" url params) as Hsig.
      destruct (Crusoe._create_crusoe_signature _ _ _ _ _ _ _ _)
        as [[hs|e'] w1]. 
      * unfold Crusoe.session_get. cbv beta iota zeta. cbn [fst].
        destruct (Crusoe.get src _ _) as [|status [[items|]|]]; simpl;
          try (intros [= <-]; by left);
          unfold raise_for_status; destruct (_ && _); simpl;
          intros [= <-]; auto.
      * simpl in Hsig. cbn [fst].
        destruct Hsig as [->| ->]; simpl; intros [= <-]; auto.
    + unfold Crusoe.session_get. cbv beta iota zeta. cbn [fst].
      destruct (Crusoe.get src _ _) as [|status [[items|]|]]; simpl;
        try (intros [= <-]; by left);
        unfold raise_for_status; destruct (_ && _); simpl;
        intros [= <-]; auto.
Qed.

(** [LogForwarder.health_check] never raises. It asks the source for one
    log; when that fetch raises, the answer is [False] and the collector
    is not contacted; when it returns, the collector gets one test event
    and the answer is whether that delivery was confirmed. *)
Theorem forwarder_health_check self env :
  let probe :=
    Crusoe.get_audit_logs url_path urlencode utc_timestamp (Main.config self)
      (Main.world env, Main.source env) None None (Some 1) None in
  let test := [Splunk.test_event isoformat
                 (clock probe.2.1 (tick probe.2.1))] in
  Main.health_check url_path urlencode utc_timestamp isoformat self env
  = match probe.1 with
    | Raise _ => (Ok false, Main.mkEnv probe.2.1 probe.2.2 (Main.sink env))
    | Ok _ =>
        (Ok (delivery_confirmed
               (Splunk.post (Main.sink env)
                  (length (Splunk.requests (Main.sink env))) test)),
         Main.mkEnv (advance probe.2.1 1) probe.2.2
           (Splunk.mkSink (Splunk.post (Main.sink env))
              (Splunk.requests (Main.sink env) ++ [test])))
    end.
Proof.
  intros probe test. subst test probe.
  unfold Main.health_check, Crusoe.health_check.
  pose proof (get_audit_logs_raises (Main.config self)
                (Main.world env, Main.source env) None None (Some 1) None)
    as Hraise.
  revert Hraise.
  destruct (Crusoe.get_audit_logs _ _ _ _ _ _ _ _ _)
    as [[logs|e] [w1 src1]]; cbn [fst snd]; intros Hraise.
  - cbv beta iota zeta delta [try_except mbind result_bind rbind].
    unfold Splunk.health_check, time_time. cbv beta iota zeta.
    rewrite send_events_result by done. cbv beta iota zeta.
    unfold advance. rewrite Nat.add_1_r.
    destruct (delivery_confirmed _); [done|].
    by destruct (hec_answer _).
  - destruct (Hraise e eq_refl) as [->|[->| ->]]; done.
Qed.

End HealthChecks.
